(** * KC-RPMD effective potential and forces (libra-code, nHamiltonian)

    A shallow embedding of [src/nhamiltonian/nHamiltonian_compute_KCRPMD.cpp]:
    [generate_m_matrices], [kcrpmd_effective_potential],
    [kcrpmd_effective_force] and [kcrpmd_effective_auxiliary_force].

    Arithmetic convention.  The C++ code computes in [double]; the embedding
    computes in the real numbers [R], so every statement below is about the
    real functions the expressions of the source denote (no rounding, no
    overflow, no NaN).  [exp], [ln], [sqrt], [sinh], [cosh], [tanh] are the
    ones of the standard library; where the source would leave the domain of
    an operation (division by zero, logarithm of a non-positive number) the
    statements carry the side condition explicitly. *)

From Stdlib Require Import Reals Lra Lia List String Ascii ZArith Bool.
Import ListNotations.
Open Scope R_scope.

(** ** Dense matrices and complex numbers of liblinalg *)

Module Linalg.

(** [complex<double>] with [.real()] and [abs]. *)
Record complex : Type := mkComplex { real : R; imag : R }.

Definition Cabs (z : complex) : R := sqrt (real z * real z + imag z * imag z).

(** Modelled from the spec: the complex matrix class [CMATRIX] of liblinalg is
    declared outside this file; the routines only read elements through
    [get(i,j)], so a matrix is the function that [get] computes. *)
Definition CMATRIX : Type := nat -> nat -> complex.

Definition get (M : CMATRIX) (i j : nat) : complex := M i j.

(** Modelled from the spec: the dense real matrix class [MATRIX] of liblinalg
    is declared outside this file.  It is a shape and row-major elements; the
    constructor [MATRIX(r, c)] fills it with zeros; scalar and element-wise
    operators act on the elements. *)
Record MATRIX : Type := mkMATRIX { n_rows : nat; n_cols : nat; elts : list R }.

Definition MATRIX_new (r c : nat) : MATRIX := mkMATRIX r c (repeat 0 (r * c)).

Fixpoint set_nth (n : nat) (v : R) (l : list R) {struct l} : list R :=
  match l, n with
  | [], _ => []
  | _ :: t, O => v :: t
  | h :: t, S k => h :: set_nth k v t
  end.

Definition mget (M : MATRIX) (i j : nat) : R :=
  nth (i * n_cols M + j) (elts M) 0.

Definition mset (M : MATRIX) (i j : nat) (v : R) : MATRIX :=
  mkMATRIX (n_rows M) (n_cols M) (set_nth (i * n_cols M + j) v (elts M)).

Fixpoint zip_with (f : R -> R -> R) (l1 l2 : list R) : list R :=
  match l1, l2 with
  | x :: t1, y :: t2 => f x y :: zip_with f t1 t2
  | _, _ => []
  end.

(** [s * M], [M * s] *)
Definition mscale (s : R) (M : MATRIX) : MATRIX :=
  mkMATRIX (n_rows M) (n_cols M) (map (fun x => s * x) (elts M)).

Definition mscale_r (M : MATRIX) (s : R) : MATRIX :=
  mkMATRIX (n_rows M) (n_cols M) (map (fun x => x * s) (elts M)).

(** [M / s] *)
Definition mdiv (M : MATRIX) (s : R) : MATRIX :=
  mkMATRIX (n_rows M) (n_cols M) (map (fun x => x / s) (elts M)).

(** [M1 + M2], [M1 - M2] *)
Definition madd (M1 M2 : MATRIX) : MATRIX :=
  mkMATRIX (n_rows M1) (n_cols M1) (zip_with Rplus (elts M1) (elts M2)).

Definition msub (M1 M2 : MATRIX) : MATRIX :=
  mkMATRIX (n_rows M1) (n_cols M1) (zip_with Rminus (elts M1) (elts M2)).

End Linalg.

Export Linalg.

Declare Scope matrix_scope.
Delimit Scope matrix_scope with M.
Bind Scope matrix_scope with MATRIX.
Infix "+" := madd : matrix_scope.
Infix "-" := msub : matrix_scope.
Infix "*:" := mscale (at level 40, left associativity) : matrix_scope.
Infix ":*" := mscale_r (at level 40, left associativity) : matrix_scope.
Infix "/:" := mdiv (at level 40, left associativity) : matrix_scope.

(** ** Process outcomes

    Every routine either returns a value or prints a diagnostic on [cout] and
    calls [exit(0)]. *)

Inductive outcome (A : Type) : Type :=
| Ret (a : A)
| Exit (status : Z) (diagnostic : string).

Arguments Ret {A} a.
Arguments Exit {A} status diagnostic.

Definition newline : string := String (ascii_of_nat 10) EmptyString.

(** ** The Hamiltonian tree *)

#[warnings="-register-all"]
Inductive nHamiltonian : Type :=
  mk_nHamiltonian {
      ndia : Z;
      ham_dia_mem_status : Z;
      ham_dia : CMATRIX;
      d1ham_dia : list CMATRIX;
      children : list nHamiltonian
    }.

Definition Czero : complex := mkComplex 0 0.

(** [children[i]], [d1ham_dia[dof]] and [y_aux_var[0]]: the source indexes
    without a bounds check.  [children[0]] is only read behind the test
    [children.size() == 1].  [d1ham_dia[dof]] is read for every
    [dof < q.n_rows] and [y_aux_var[0]] on every returning path, both
    unchecked: the defaults below stand in for a read past the end, which
    the source does not define, and statements about what the routines
    return are meant for a one-element [y_aux_var] and a derivative matrix
    for every row of [q]. *)
Definition child (H : nHamiltonian) (i : nat) : nHamiltonian := nth i (children H) H.

Definition d1ham (H : nHamiltonian) (dof : nat) : CMATRIX :=
  nth dof (d1ham_dia H) (fun _ _ => Czero).

(** ** The numeric kernel shared by the three driver routines

    The three drivers repeat the same text for the kinked-pair energy
    (lines 113-123, 206-216, 347-357), for the kinetic constraint
    (lines 126-129, 251-254, 360-363) and for the auxiliary gates
    (lines 132-149, 275-292, 366-383). *)

Inductive regime : Type :=
| StrongCoupling        (* beta * K > 1e-3 *)
| SplitDiabats          (* else, beta * |V0 - V1| > 1e-7 *)
| DegenerateDiabats.    (* else *)

Section Kernel.

Variables beta eta a b c d : R.

Definition adiabatic_Vg (V0 V1 K : R) : R :=
  0.5 * (V0 + V1) - 0.5 * sqrt ((V0 - V1) ^ 2 + (2 * K) ^ 2).

Definition adiabatic_Ve (V0 V1 K : R) : R :=
  0.5 * (V0 + V1) + 0.5 * sqrt ((V0 - V1) ^ 2 + (2 * K) ^ 2).

(** The tests of lines 115, 118 and 121 of [kcrpmd_effective_potential]. *)
Definition VKP_regime (V0 V1 K : R) : regime :=
  if Rgt_dec (beta * K) 1e-3 then StrongCoupling
  else if Rgt_dec (beta * Rabs (V0 - V1)) 1e-7 then SplitDiabats
  else DegenerateDiabats.

(** Lines 113-123: the kinked-pair energy before the constraint is added. *)
Definition kinked_pair_VKP (V0 V1 K : R) : R :=
  let Vg := adiabatic_Vg V0 V1 K in
  let Ve := adiabatic_Ve V0 V1 K in
  match VKP_regime V0 V1 K with
  | StrongCoupling =>
      Vg - ln (1 + exp (- beta * (Ve - Vg)) - exp (- beta * (V0 - Vg))
                 - exp (- beta * (V1 - Vg))) / beta
  | SplitDiabats =>
      0.5 * (V0 + V1)
      - ln ((beta * K) ^ 2 * sinh (0.5 * beta * (V0 - V1))
            / (0.5 * beta * (V0 - V1))) / beta
  | DegenerateDiabats =>
      0.5 * (V0 + V1) - ln ((beta * K) ^ 2) / beta
  end.

(** Lines 126-129: the kinetic constraint. *)
Definition constraint_w (V0 V1 K : R) : R := (V0 - V1) / K.

Definition constraint_A (K : R) : R :=
  0.5 * a * (1 + tanh (- c * (beta * K - 1))).

Definition constraint_C (K : R) : R :=
  let A := constraint_A K in
  1 + 0.5 * (sqrt (A / 3.1415) * eta - 1) * (1 + tanh (- d * (beta * K - 1))).

Definition kinetic_constraint (V0 V1 K : R) : R :=
  let w := constraint_w V0 V1 K in
  let A := constraint_A K in
  let C := constraint_C K in
  (A * w ^ 2 - ln C) / beta.

(** [VKP] as it stands after line 129. *)
Definition constrained_VKP (V0 V1 K : R) : R :=
  kinked_pair_VKP V0 V1 K + kinetic_constraint V0 V1 K.

(** Lines 132-149: one auxiliary gate; [x] is [y_aux_var[0] + 1],
    [y_aux_var[0] - 1] or [y_aux_var[0]]. *)
Definition gate_inner (x : R) : R :=
  - ln (1 / (1 + exp (b * (2 * Rabs x - 1)))) / beta.

Definition gate_outer (x : R) : R :=
  (b * (2 * Rabs x - 1) - ln (1 / (1 + exp (- b * (2 * Rabs x - 1))))) / beta.

Definition heaviside_gate (x : R) : R :=
  if Rlt_dec (Rabs x) 0.5 then gate_inner x else gate_outer x.

(** The three surfaces as they stand when control reaches [Vshift]. *)
Record surfaces : Type := mkSurfaces { sV0 : R; sVKP : R; sV1 : R }.

Definition gated_surfaces (V0 V1 K y : R) : surfaces :=
  let VKP := kinked_pair_VKP V0 V1 K in
  let VKP := VKP + kinetic_constraint V0 V1 K in
  let V0 := V0 + heaviside_gate (y + 1) in
  let V1 := V1 + heaviside_gate (y - 1) in
  let VKP := VKP + heaviside_gate y in
  mkSurfaces V0 VKP V1.

(** [min({V0, VKP, V1})] *)
Definition Vshift_of (S : surfaces) : R := Rmin (sV0 S) (Rmin (sVKP S) (sV1 S)).

Definition boltzmann_weight (S : surfaces) (V : R) : R :=
  exp (- beta * (V - Vshift_of S)).

Definition partition_sum (S : surfaces) : R :=
  boltzmann_weight S (sV0 S) + boltzmann_weight S (sVKP S) + boltzmann_weight S (sV1 S).

End Kernel.


(** ** The force kernel of [kcrpmd_effective_force] *)

Section ForceKernel.

Variables beta eta a b c d : R.

(** Lines 221-229: column 0 of a force matrix is filled row by row. *)
Definition fill_column (f : nat -> R) (ndof : nat) (M : MATRIX) : MATRIX :=
  fold_left (fun (F : MATRIX) (dof : nat) => mset F dof 0 (f dof)) (seq 0 ndof) M.

(** The tests of lines 232, 237 and 241 of [kcrpmd_effective_force]. *)
Definition FKP_regime (V0 V1 K : R) : regime :=
  if Rgt_dec (beta * K) 1e-3 then StrongCoupling
  else if Rgt_dec (beta * Rabs (V0 - V1)) 1e-7 then SplitDiabats
  else DegenerateDiabats.

(** Lines 230-248: the kinked-pair force before the constraint is added. *)
Definition kinked_pair_FKP (V0 V1 K : R) (F0 F1 FK : MATRIX) : MATRIX :=
  let Vg := adiabatic_Vg V0 V1 K in
  let Ve := adiabatic_Ve V0 V1 K in
  let Fg := (0.5 *: (F0 + F1)
             - ((V0 - V1) *: (F0 - F1) + 4 * K *: FK)
               /: (2 * sqrt ((V0 - V1) ^ 2 + (2 * K) ^ 2)))%M in
  let Fe := (0.5 *: (F0 + F1)
             + ((V0 - V1) *: (F0 - F1) + 4 * K *: FK)
               /: (2 * sqrt ((V0 - V1) ^ 2 + (2 * K) ^ 2)))%M in
  match FKP_regime V0 V1 K with
  | StrongCoupling =>
      ((Fg + exp (- beta * (Ve - Vg)) *: Fe - exp (- beta * (V0 - Vg)) *: F0
        - exp (- beta * (V1 - Vg)) *: F1)
       /: (1 + exp (- beta * (Ve - Vg)) - exp (- beta * (V0 - Vg))
           - exp (- beta * (V1 - Vg))))%M
  | SplitDiabats =>
      (0.5 *: (F0 + F1)
       + (F0 - F1) :* (1 / (beta * (V0 - V1))
                       - 0.5 * cosh (0.5 * beta * (V0 - V1))
                         / sinh (0.5 * beta * (V0 - V1)))
       - 2 *: FK /: (beta * K))%M
  | DegenerateDiabats =>
      (0.5 *: (F0 + F1) - 2 *: FK /: (beta * K))%M
  end.

(** Line 259. *)
Definition constraint_Fw (V0 V1 K : R) (F0 F1 FK : MATRIX) : MATRIX :=
  let w := constraint_w V0 V1 K in
  ((F0 - F1 - w *: FK) /: K)%M.

(** Lines 257 and 260-262: [FA] is created zero and overwritten only when the
    guard holds. *)
Definition constraint_FA (K : R) (ndof ntraj : nat) (FK : MATRIX) : MATRIX :=
  let FA := MATRIX_new ndof ntraj in
  if Rlt_dec (c * Rabs (beta * K - 1)) 250
  then (- 0.5 * a * c * beta / cosh (- c * (beta * K - 1)) ^ 2 *: FK)%M
  else FA.

(** Line 264: the contribution to [FC] that is always made. *)
Definition constraint_FC_first (K : R) (FA : MATRIX) : MATRIX :=
  let A := constraint_A beta a c K in
  (- eta / (4 * sqrt 3.1415) * (1 + tanh (- d * (beta * K - 1))) *: FA /: sqrt A)%M.

(** Lines 264-268. *)
Definition constraint_FC (K : R) (FA FK : MATRIX) : MATRIX :=
  let A := constraint_A beta a c K in
  let FC := constraint_FC_first K FA in
  if Rlt_dec (d * Rabs (beta * K - 1)) 250
  then (FC + - 0.5 * d * beta * (sqrt (A / 3.1415) * eta - 1)
             / cosh (- d * (beta * K - 1)) ^ 2 *: FK)%M
  else FC.

(** Lines 256-271: [FKP] after the constraint force is added. *)
Definition constrained_FKP (V0 V1 K : R) (ndof ntraj : nat) (F0 F1 FK : MATRIX) : MATRIX :=
  let FKP := kinked_pair_FKP V0 V1 K F0 F1 FK in
  let w := constraint_w V0 V1 K in
  let A := constraint_A beta a c K in
  let C := constraint_C beta eta a c d K in
  let Fw := constraint_Fw V0 V1 K F0 F1 FK in
  let FA := constraint_FA K ndof ntraj FK in
  let FC := constraint_FC K FA FK in
  (FKP + (w * w *: FA + 2 * A * w *: Fw - FC /: C) /: beta)%M.

(** Lines 385-402: the derivative of one auxiliary gate with respect to
    [y_aux_var[0]]. *)
Definition gate_force (x : R) : R :=
  if Rgt_dec x 0.0
  then - b * (1 + tanh (b * (Rabs x - 0.5))) / beta
  else b * (1 + tanh (b * (Rabs x - 0.5))) / beta.

End ForceKernel.

(** The automatic variables [F0], [F1] and [FKP] of
    [kcrpmd_effective_auxiliary_force] are declared without an initializer
    (lines 335-337) and then only updated with [+=]: what they hold when the
    routine starts is not fixed by the arguments of the call.  It is made
    explicit here. *)
Record indeterminate : Type :=
  mkIndeterminate { F0_uninit : R; F1_uninit : R; FKP_uninit : R }.

(** ** The driver routines *)

Section Drivers.

(** [RPMD_internal_potential] and [RPMD_internal_force] are methods of
    [nHamiltonian] defined in another file; they are called as black boxes. *)
Variable RPMD_internal_potential : nHamiltonian -> MATRIX -> MATRIX -> R -> R.
Variable RPMD_internal_force : nHamiltonian -> MATRIX -> MATRIX -> R -> MATRIX.

Definition not_allocated (routine : string) : string :=
  ("Error in " ++ routine
   ++ "(): the diabatic Hamiltonian matrix is not allocated   but it is needed for the calculations"
   ++ newline)%string.

Definition only_ndia_2 (routine : string) : string :=
  ("Error in " ++ routine ++ "(): implementation only for ndia=2" ++ newline)%string.

Definition not_for_quantum_nuclei (routine : string) : string :=
  ("Error in " ++ routine ++ "() not implemented for quantum nuclei" ++ newline)%string.

Definition size_mismatch : string :=
  ("ERROR: the size of the input is different from the number of children" ++ newline)%string.

(** Lines 38-75. *)
Definition generate_m_matrices (H : nHamiltonian) (beta : R) : outcome (list MATRIX) :=
  if (ham_dia_mem_status H =? 0)%Z then Exit 0 (not_allocated "generate_m_matrices")
  else if negb (ndia H =? 2)%Z then Exit 0 (only_ndia_2 "generate_m_matrices")
  else if (List.length (children H) =? 0)%nat then
    let V0 := real (get (ham_dia H) 0 0) in
    let V1 := real (get (ham_dia H) 1 1) in
    let K := Cabs (get (ham_dia H) 0 1) in
    Ret [mset (mset (mset (mset (MATRIX_new 2 2)
                 0 0 (exp (- beta * V0)))
                 0 1 (- beta * K * exp (- beta * V0)))
                 1 0 (- beta * K * exp (- beta * V1)))
                 1 1 (exp (- beta * V1))]
  else
    let size := INR (List.length (children H)) in
    Ret (map (fun ch : nHamiltonian =>
                let V0 := real (get (ham_dia ch) 0 0) in
                let V1 := real (get (ham_dia ch) 1 1) in
                let K := Cabs (get (ham_dia ch) 0 1) in
                mset (mset (mset (mset (MATRIX_new 2 2)
                  0 0 (exp (- beta / size * V0)))
                  0 1 (- beta / size * K * exp (- beta / size * V0)))
                  1 0 (- beta / size * K * exp (- beta / size * V1)))
                  1 1 (exp (- beta / size * V1)))
             (children H)).

(** Lines 78-163. *)
Definition kcrpmd_effective_potential (H : nHamiltonian) (y_aux_var : list R)
    (q invM : MATRIX) (beta eta a b c d : R) : outcome R :=
  if (ham_dia_mem_status H =? 0)%Z then Exit 0 (not_allocated "kcrpmd_effective_potential")
  else if negb (ndia H =? 2)%Z then Exit 0 (only_ndia_2 "kcrpmd_effective_potential")
  else
    let ntraj := n_cols q in
    if ((List.length (children H) =? 1) && (ntraj =? 1))%nat then
      let V0 := real (get (ham_dia (child H 0)) 0 0) in
      let V1 := real (get (ham_dia (child H 0)) 1 1) in
      let K := Cabs (get (ham_dia (child H 0)) 0 1) in
      let S := gated_surfaces beta eta a b c d V0 V1 K (nth 0 y_aux_var 0) in
      let Vshift := Vshift_of S in
      Ret (RPMD_internal_potential H q invM beta + Vshift
           - ln (exp (- beta * (sV0 S - Vshift)) + exp (- beta * (sVKP S - Vshift))
                 + exp (- beta * (sV1 S - Vshift))) / beta)
    else if (List.length (children H) =? ntraj)%nat then
      Exit 0 (not_for_quantum_nuclei "kcrpmd_effective_potential")
    else Exit 0 size_mismatch.

(** Lines 166-308.  The diagnostics name [kcrpmd_effective_potential], as
    the source has them. *)
Definition kcrpmd_effective_force (H : nHamiltonian) (y_aux_var : list R)
    (q invM : MATRIX) (beta eta a b c d : R) : outcome MATRIX :=
  if (ham_dia_mem_status H =? 0)%Z then Exit 0 (not_allocated "kcrpmd_effective_potential")
  else if negb (ndia H =? 2)%Z then Exit 0 (only_ndia_2 "kcrpmd_effective_potential")
  else
    let ndof := n_rows q in
    let ntraj := n_cols q in
    let F0 := MATRIX_new ndof ntraj in
    let F1 := MATRIX_new ndof ntraj in
    if ((List.length (children H) =? 1) && (ntraj =? 1))%nat then
      let V0 := real (get (ham_dia (child H 0)) 0 0) in
      let V1 := real (get (ham_dia (child H 0)) 1 1) in
      let K := Cabs (get (ham_dia (child H 0)) 0 1) in
      let FK := MATRIX_new ndof ntraj in
      let F0 := fill_column (fun dof => - real (get (d1ham (child H 0) dof) 0 0)) ndof F0 in
      let F1 := fill_column (fun dof => - real (get (d1ham (child H 0) dof) 1 1)) ndof F1 in
      let FK := fill_column (fun dof => - real (get (d1ham (child H 0) dof) 0 1)) ndof FK in
      let FKP := constrained_FKP beta eta a c d V0 V1 K ndof ntraj F0 F1 FK in
      let S := gated_surfaces beta eta a b c d V0 V1 K (nth 0 y_aux_var 0) in
      let Vshift := Vshift_of S in
      Ret (RPMD_internal_force H q invM beta
           + (exp (- beta * (sV0 S - Vshift)) *: F0
              + exp (- beta * (sVKP S - Vshift)) *: FKP
              + exp (- beta * (sV1 S - Vshift)) *: F1)
             /: (exp (- beta * (sV0 S - Vshift)) + exp (- beta * (sVKP S - Vshift))
                 + exp (- beta * (sV1 S - Vshift))))%M
    else if (List.length (children H) =? ntraj)%nat then
      Exit 0 (not_for_quantum_nuclei "kcrpmd_effective_potential")
    else Exit 0 size_mismatch.

(** Lines 311-413.  [stack] holds what the uninitialized [F0], [F1], [FKP]
    contain on entry. *)
Definition kcrpmd_effective_auxiliary_force (stack : indeterminate)
    (H : nHamiltonian) (y_aux_var : list R) (beta eta a b c d : R) : outcome (list R) :=
  if (ham_dia_mem_status H =? 0)%Z then Exit 0 (not_allocated "kcrpmd_effective_potential")
  else if negb (ndia H =? 2)%Z then Exit 0 (only_ndia_2 "kcrpmd_effective_potential")
  else
    let ntraj := List.length (children H) in
    let F0 := F0_uninit stack in
    let F1 := F1_uninit stack in
    let FKP := FKP_uninit stack in
    if (ntraj =? 1)%nat then
      let V0 := real (get (ham_dia (child H 0)) 0 0) in
      let V1 := real (get (ham_dia (child H 0)) 1 1) in
      let K := Cabs (get (ham_dia (child H 0)) 0 1) in
      let y := nth 0 y_aux_var 0 in
      let S := gated_surfaces beta eta a b c d V0 V1 K y in
      let F0 := F0 + gate_force beta b (y + 1) in
      let FKP := FKP + gate_force beta b y in
      let F1 := F1 + gate_force beta b (y - 1) in
      let Vshift := Vshift_of S in
      Ret [(exp (- beta * (sV0 S - Vshift)) * F0 + exp (- beta * (sVKP S - Vshift)) * FKP
            + exp (- beta * (sV1 S - Vshift)) * F1)
           / (exp (- beta * (sV0 S - Vshift)) + exp (- beta * (sVKP S - Vshift))
              + exp (- beta * (sV1 S - Vshift)))]
    else Exit 0 (not_for_quantum_nuclei "kcrpmd_effective_auxiliary_force").

End Drivers.

(** ** Reference formulas of the specification *)

(** The softplus function [ln (1 + e^z)]. *)
Definition softplus (z : R) : R := ln (1 + exp z).

(** The hyperbolic secant. *)
Definition sech (x : R) : R := 1 / cosh x.

(** The constraint term as the specification words it, with the
    mathematical constant [PI] under the square root. *)
Definition spec_constraint_C (beta eta a c d K : R) : R :=
  let A := 1 / 2 * a * (1 + tanh (- c * (beta * K - 1))) in
  1 + 1 / 2 * (sqrt (A / PI) * eta - 1) * (1 + tanh (- d * (beta * K - 1))).

Definition spec_kinetic_constraint (beta eta a c d V0 V1 K : R) : R :=
  let w := (V0 - V1) / K in
  let A := 1 / 2 * a * (1 + tanh (- c * (beta * K - 1))) in
  let C := spec_constraint_C beta eta a c d K in
  (A * w ^ 2 - ln C) / beta.

(** The guard of [FA] as the specification words it: the update is skipped
    exactly when [|c (beta K - 1)| >= 250]. *)
Definition spec_constraint_FA (beta a c K : R) (ndof ntraj : nat) (FK : MATRIX) : MATRIX :=
  if Rge_dec (Rabs (c * (beta * K - 1))) 250
  then MATRIX_new ndof ntraj
  else (- (1 / 2) * a * c * beta * sech (- c * (beta * K - 1)) ^ 2 *: FK)%M.

(** A diagnostic identifies a routine when the name of the routine occurs in
    it. *)
Definition identifies (routine diagnostic : string) : bool :=
  match index 0 routine diagnostic with
  | Some _ => true
  | None => false
  end.

(** The operations executed on the way to [VKP] at line 129 stay inside
    their domains: no divisor is zero, no square root has a negative
    argument, no logarithm has a non-positive argument. *)
Definition constrained_VKP_defined (beta eta a c d V0 V1 K : R) : Prop :=
  beta <> 0 /\ K <> 0
  /\ 0 <= (V0 - V1) ^ 2 + (2 * K) ^ 2
  /\ match VKP_regime beta V0 V1 K with
     | StrongCoupling =>
         let Vg := adiabatic_Vg V0 V1 K in
         let Ve := adiabatic_Ve V0 V1 K in
         0 < 1 + exp (- beta * (Ve - Vg)) - exp (- beta * (V0 - Vg))
             - exp (- beta * (V1 - Vg))
     | SplitDiabats =>
         0.5 * beta * (V0 - V1) <> 0
         /\ 0 < (beta * K) ^ 2 * sinh (0.5 * beta * (V0 - V1))
                / (0.5 * beta * (V0 - V1))
     | DegenerateDiabats => 0 < (beta * K) ^ 2
     end
  /\ 0 <= constraint_A beta a c K / 3.1415
  /\ 0 < constraint_C beta eta a c d K.

(** ** Concrete systems *)

(** A bead with real diabatic energies [V0], [V1], coupling [K01] and the
    derivative matrices [d1]. *)
Definition bead (V0 V1 : R) (K01 : complex) (d1 : list CMATRIX) : nHamiltonian :=
  mk_nHamiltonian 2 1
    (fun i j => match i, j with
                | O, O => mkComplex V0 0
                | S O, S O => mkComplex V1 0
                | _, _ => K01
                end)
    d1 [].

(** A parent Hamiltonian with the given beads as children. *)
Definition ring_polymer (status : Z) (beads : list nHamiltonian) : nHamiltonian :=
  mk_nHamiltonian 2 status (fun _ _ => Czero) [] beads.

(** ** Further reference notions *)

(** The partition sum without the stabilizing shift. *)
Definition unshifted_sum (beta : R) (S : surfaces) : R :=
  exp (- beta * sV0 S) + exp (- beta * sVKP S) + exp (- beta * sV1 S).

(** The number a routine hands back, for statements about a routine as a
    function of one argument; a call that exits hands back nothing and is
    given [0] here. *)
Definition returned_value (o : outcome R) : R :=
  match o with
  | Ret v => v
  | Exit _ _ => 0
  end.

Definition returned_component (o : outcome (list R)) : R :=
  match o with
  | Ret l => nth 0 l 0
  | Exit _ _ => 0
  end.

(** The accumulators of [kcrpmd_effective_auxiliary_force] when the stack
    happens to hold zeros. *)
Definition zero_stack : indeterminate := mkIndeterminate 0 0 0.

(** Products and sums over the beads. *)
Definition Rprod (l : list R) : R := fold_right Rmult 1 l.

Definition Rsum (l : list R) : R := fold_right Rplus 0 l.

(** ** Elementary facts about the real functions used *)

(** Decimal literals are rationals; [ring] and [field] want them as
    quotients of integers. *)
Ltac decimals := unfold Q2R; cbn [QArith_base.Qnum QArith_base.Qden].

Lemma cosh_pos (x : R) : 0 < cosh x.
Proof.
  unfold cosh. pose proof (exp_pos x). pose proof (exp_pos (- x)). lra.
Qed.

Lemma tanh_bounds (x : R) : -1 < tanh x < 1.
Proof.
  pose proof (cosh_pos x) as Hc.
  assert (Hs : - cosh x < sinh x < cosh x).
  { unfold cosh, sinh. pose proof (exp_pos x). pose proof (exp_pos (- x)). lra. }
  assert (Ht : tanh x * cosh x = sinh x) by (unfold tanh; field; lra).
  split; nra.
Qed.

Lemma tanh_0 : tanh 0 = 0.
Proof. unfold tanh. rewrite sinh_0, cosh_0. lra. Qed.

Lemma sinh_opp (x : R) : sinh (- x) = - sinh x.
Proof. unfold sinh. rewrite Ropp_involutive. lra. Qed.

Lemma exp_le_1 (x : R) : x <= 0 -> exp x <= 1.
Proof.
  intros [Hx | ->]; [| rewrite exp_0; lra].
  left. rewrite <- exp_0. now apply exp_increasing.
Qed.

Lemma exp_ge_1 (x : R) : 0 <= x -> 1 <= exp x.
Proof. intros Hx. pose proof (exp_ineq1_le x). lra. Qed.

Lemma softplus_inner (z : R) : - ln (1 / (1 + exp z)) = softplus z.
Proof.
  unfold softplus, Rdiv. rewrite Rmult_1_l, ln_Rinv; [lra |].
  pose proof (exp_pos z); lra.
Qed.

Lemma softplus_outer (z : R) : z - ln (1 / (1 + exp (- z))) = softplus z.
Proof.
  unfold softplus, Rdiv. rewrite Rmult_1_l.
  pose proof (exp_pos z) as Hz. pose proof (exp_pos (- z)) as Hmz.
  rewrite ln_Rinv by lra.
  replace (1 + exp z) with (exp z * (1 + exp (- z))).
  - rewrite ln_mult by lra. rewrite ln_exp. lra.
  - rewrite Rmult_plus_distr_l, <- exp_plus, Rplus_opp_r, exp_0. lra.
Qed.

Lemma gate_inner_softplus (beta b x : R) :
  gate_inner beta b x = softplus (b * (2 * Rabs x - 1)) / beta.
Proof. unfold gate_inner. now rewrite softplus_inner. Qed.

Lemma gate_outer_softplus (beta b x : R) :
  gate_outer beta b x = softplus (b * (2 * Rabs x - 1)) / beta.
Proof.
  unfold gate_outer.
  replace (- b * (2 * Rabs x - 1)) with (- (b * (2 * Rabs x - 1))) by ring.
  now rewrite softplus_outer.
Qed.

Lemma heaviside_gate_softplus (beta b x : R) :
  heaviside_gate beta b x = softplus (b * (2 * Rabs x - 1)) / beta.
Proof.
  unfold heaviside_gate. destruct (Rlt_dec (Rabs x) 0.5).
  - apply gate_inner_softplus.
  - apply gate_outer_softplus.
Qed.

Lemma softplus_continuous (z : R) : continuity_pt softplus z.
Proof.
  apply (continuity_pt_comp (fun t => 1 + exp t) ln).
  - apply (continuity_pt_plus (fct_cte 1) exp).
    + apply derivable_continuous_pt, derivable_pt_const.
    + apply derivable_continuous_pt, derivable_pt_exp.
  - apply derivable_continuous_pt.
    exists (/ (1 + exp z)). apply derivable_pt_lim_ln.
    pose proof (exp_pos z); lra.
Qed.

Lemma gate_argument_continuous (b m y : R) :
  continuity_pt (fun t => b * (2 * Rabs (t - m) - 1)) y.
Proof.
  apply (continuity_pt_scal (fun t => 2 * Rabs (t - m) - 1) b).
  apply (continuity_pt_minus (fun t => 2 * Rabs (t - m)) (fct_cte 1)).
  - apply (continuity_pt_scal (fun t => Rabs (t - m)) 2).
    apply (continuity_pt_comp (fun t => t - m) Rabs).
    + apply (continuity_pt_minus id (fct_cte m)).
      * apply derivable_continuous_pt, derivable_pt_id.
      * apply derivable_continuous_pt, derivable_pt_const.
    + apply Rcontinuity_abs.
  - apply derivable_continuous_pt, derivable_pt_const.
Qed.

Lemma heaviside_gate_continuous (beta b m y : R) :
  continuity_pt (fun t => heaviside_gate beta b (t - m)) y.
Proof.
  apply (continuity_pt_locally_ext
           (fun t => / beta * softplus (b * (2 * Rabs (t - m) - 1))) _ 1 y).
  - lra.
  - intros t _. rewrite heaviside_gate_softplus. unfold Rdiv. ring.
  - apply (continuity_pt_scal (fun t => softplus (b * (2 * Rabs (t - m) - 1))) (/ beta)).
    apply (continuity_pt_comp (fun t => b * (2 * Rabs (t - m) - 1)) softplus).
    + apply gate_argument_continuous.
    + apply softplus_continuous.
Qed.

(** ** The auxiliary gates *)

(** C6: with [x = y - m] and [z = b (2|x| - 1)], the inner-branch value and
    the outer-branch value of the auxiliary gate are the same real number,
    [softplus z / beta]; the piecewise gate is continuous at every [y], in
    particular where [|x| = 0.5]. *)
Theorem gate_branches_agree (y b beta m : R) :
  beta <> 0 ->
  let x := y - m in
  let z := b * (2 * Rabs x - 1) in
  - ln (1 / (1 + exp z)) / beta = (z - ln (1 / (1 + exp (- z)))) / beta
  /\ gate_inner beta b x = - ln (1 / (1 + exp z)) / beta
  /\ gate_outer beta b x = (z - ln (1 / (1 + exp (- z)))) / beta
  /\ gate_inner beta b x = softplus z / beta
  /\ gate_outer beta b x = softplus z / beta
  /\ continuity_pt (fun t => heaviside_gate beta b (t - m)) y.
Proof.
  intros _ x z. subst x z. repeat split.
  - now rewrite softplus_inner, softplus_outer.
  - unfold gate_outer. f_equal. f_equal. f_equal. f_equal. f_equal. f_equal. ring.
  - apply gate_inner_softplus.
  - apply gate_outer_softplus.
  - apply heaviside_gate_continuous.
Qed.

(** ** The kinked-pair energy *)

Lemma VKP_regime_strong (beta V0 V1 K : R) :
  beta * K > 1e-3 -> VKP_regime beta V0 V1 K = StrongCoupling.
Proof. intros H. unfold VKP_regime. now destruct (Rgt_dec (beta * K) 1e-3). Qed.

Lemma adiabatic_Vg_swap (V0 V1 K : R) : adiabatic_Vg V0 V1 K = adiabatic_Vg V1 V0 K.
Proof.
  unfold adiabatic_Vg.
  replace ((V1 - V0) ^ 2) with ((V0 - V1) ^ 2) by ring. ring.
Qed.

Lemma adiabatic_Ve_swap (V0 V1 K : R) : adiabatic_Ve V0 V1 K = adiabatic_Ve V1 V0 K.
Proof.
  unfold adiabatic_Ve.
  replace ((V1 - V0) ^ 2) with ((V0 - V1) ^ 2) by ring. ring.
Qed.

Lemma VKP_regime_swap (beta V0 V1 K : R) :
  VKP_regime beta V0 V1 K = VKP_regime beta V1 V0 K.
Proof. unfold VKP_regime. now rewrite (Rabs_minus_sym V0 V1). Qed.

Lemma kinked_pair_VKP_swap (beta V0 V1 K : R) :
  kinked_pair_VKP beta V0 V1 K = kinked_pair_VKP beta V1 V0 K.
Proof.
  unfold kinked_pair_VKP.
  rewrite <- (VKP_regime_swap beta V0 V1 K).
  rewrite <- (adiabatic_Vg_swap V0 V1 K), <- (adiabatic_Ve_swap V0 V1 K).
  destruct (VKP_regime beta V0 V1 K).
  - f_equal. f_equal. f_equal. ring.
  - replace (0.5 * (V1 + V0)) with (0.5 * (V0 + V1)) by ring.
    f_equal. f_equal. f_equal.
    replace (0.5 * beta * (V1 - V0)) with (- (0.5 * beta * (V0 - V1))) by ring.
    rewrite sinh_opp. unfold Rdiv. rewrite Rinv_opp. ring.
  - f_equal. ring.
Qed.

Lemma kinetic_constraint_swap (beta eta a c d V0 V1 K : R) :
  kinetic_constraint beta eta a c d V0 V1 K = kinetic_constraint beta eta a c d V1 V0 K.
Proof.
  unfold kinetic_constraint, constraint_w. cbv zeta.
  f_equal. f_equal. f_equal. unfold Rdiv. ring.
Qed.


(** C2: for every input the branch of [VKP] taken in
    [kcrpmd_effective_potential] and the branch of [FKP] taken in
    [kcrpmd_effective_force] belong to the same regime.  [beta * K > 1e-3]
    gives the first energy formula and the first force formula; otherwise
    [beta * |V0 - V1| > 1e-7] gives the second of each; otherwise the third
    of each. *)
Theorem regime_consistency (beta V0 V1 K : R) (F0 F1 FK : MATRIX) :
  let Vg := adiabatic_Vg V0 V1 K in
  let Ve := adiabatic_Ve V0 V1 K in
  let Fg := (0.5 *: (F0 + F1)
             - ((V0 - V1) *: (F0 - F1) + 4 * K *: FK)
               /: (2 * sqrt ((V0 - V1) ^ 2 + (2 * K) ^ 2)))%M in
  let Fe := (0.5 *: (F0 + F1)
             + ((V0 - V1) *: (F0 - F1) + 4 * K *: FK)
               /: (2 * sqrt ((V0 - V1) ^ 2 + (2 * K) ^ 2)))%M in
  VKP_regime beta V0 V1 K = FKP_regime beta V0 V1 K
  /\ (beta * K > 1e-3 ->
      kinked_pair_VKP beta V0 V1 K
      = Vg - ln (1 + exp (- beta * (Ve - Vg)) - exp (- beta * (V0 - Vg))
                 - exp (- beta * (V1 - Vg))) / beta
      /\ kinked_pair_FKP beta V0 V1 K F0 F1 FK
         = ((Fg + exp (- beta * (Ve - Vg)) *: Fe - exp (- beta * (V0 - Vg)) *: F0
             - exp (- beta * (V1 - Vg)) *: F1)
            /: (1 + exp (- beta * (Ve - Vg)) - exp (- beta * (V0 - Vg))
                - exp (- beta * (V1 - Vg))))%M)
  /\ (~ beta * K > 1e-3 -> beta * Rabs (V0 - V1) > 1e-7 ->
      kinked_pair_VKP beta V0 V1 K
      = 0.5 * (V0 + V1)
        - ln ((beta * K) ^ 2 * sinh (0.5 * beta * (V0 - V1))
              / (0.5 * beta * (V0 - V1))) / beta
      /\ kinked_pair_FKP beta V0 V1 K F0 F1 FK
         = (0.5 *: (F0 + F1)
            + (F0 - F1) :* (1 / (beta * (V0 - V1))
                            - 0.5 * cosh (0.5 * beta * (V0 - V1))
                              / sinh (0.5 * beta * (V0 - V1)))
            - 2 *: FK /: (beta * K))%M)
  /\ (~ beta * K > 1e-3 -> ~ beta * Rabs (V0 - V1) > 1e-7 ->
      kinked_pair_VKP beta V0 V1 K = 0.5 * (V0 + V1) - ln ((beta * K) ^ 2) / beta
      /\ kinked_pair_FKP beta V0 V1 K F0 F1 FK
         = (0.5 *: (F0 + F1) - 2 *: FK /: (beta * K))%M)
  /\ (FKP_regime beta V0 V1 K = StrongCoupling <-> beta * K > 1e-3)
  /\ (FKP_regime beta V0 V1 K = SplitDiabats
      <-> ~ beta * K > 1e-3 /\ beta * Rabs (V0 - V1) > 1e-7)
  /\ (FKP_regime beta V0 V1 K = DegenerateDiabats
      <-> ~ beta * K > 1e-3 /\ ~ beta * Rabs (V0 - V1) > 1e-7).
Proof.
  intros Vg Ve Fg Fe.
  unfold kinked_pair_VKP, kinked_pair_FKP, VKP_regime, FKP_regime.
  fold Vg Ve Fg Fe.
  destruct (Rgt_dec (beta * K) 1e-3) as [H1 | H1];
    [| destruct (Rgt_dec (beta * Rabs (V0 - V1)) 1e-7) as [H2 | H2]];
    (split; [reflexivity |]);
    (split; [intros ?; try tauto; split; reflexivity |]);
    (split; [intros ? ?; try tauto; split; reflexivity |]);
    (split; [intros ? ?; try tauto; split; reflexivity |]);
    repeat split; try tauto; try discriminate; intros [? ?]; tauto.
Qed.

(** ** The Boltzmann blender *)

Lemma boltzmann_weight_pos (beta : R) (S : surfaces) (V : R) :
  0 < boltzmann_weight beta S V.
Proof. apply exp_pos. Qed.

Lemma partition_sum_pos (beta : R) (S : surfaces) : 0 < partition_sum beta S.
Proof.
  unfold partition_sum.
  pose proof (boltzmann_weight_pos beta S (sV0 S)).
  pose proof (boltzmann_weight_pos beta S (sVKP S)).
  pose proof (boltzmann_weight_pos beta S (sV1 S)).
  lra.
Qed.

Lemma Vshift_of_lower (S : surfaces) :
  Vshift_of S <= sV0 S /\ Vshift_of S <= sVKP S /\ Vshift_of S <= sV1 S.
Proof.
  unfold Vshift_of.
  pose proof (Rmin_l (sV0 S) (Rmin (sVKP S) (sV1 S))).
  pose proof (Rmin_r (sV0 S) (Rmin (sVKP S) (sV1 S))).
  pose proof (Rmin_l (sVKP S) (sV1 S)).
  pose proof (Rmin_r (sVKP S) (sV1 S)).
  lra.
Qed.

Lemma Vshift_of_attained (S : surfaces) :
  Vshift_of S = sV0 S \/ Vshift_of S = sVKP S \/ Vshift_of S = sV1 S.
Proof.
  unfold Vshift_of, Rmin.
  destruct (Rle_dec (sVKP S) (sV1 S));
    match goal with |- context [Rle_dec ?x ?y] => destruct (Rle_dec x y) end;
    tauto.
Qed.

Lemma exponents_nonpositive (beta : R) (S : surfaces) :
  0 <= beta ->
  - beta * (sV0 S - Vshift_of S) <= 0
  /\ - beta * (sVKP S - Vshift_of S) <= 0
  /\ - beta * (sV1 S - Vshift_of S) <= 0.
Proof.
  intros Hb. destruct (Vshift_of_lower S) as (H0 & HK & H1).
  repeat split; nra.
Qed.

Lemma exponent_zero_attained (beta : R) (S : surfaces) :
  - beta * (sV0 S - Vshift_of S) = 0
  \/ - beta * (sVKP S - Vshift_of S) = 0
  \/ - beta * (sV1 S - Vshift_of S) = 0.
Proof.
  destruct (Vshift_of_attained S) as [E | [E | E]]; rewrite E;
    [left | right; left | right; right]; ring.
Qed.

Lemma partition_sum_range (beta : R) (S : surfaces) :
  0 <= beta -> 1 <= partition_sum beta S <= 3.
Proof.
  intros Hb. destruct (exponents_nonpositive beta S Hb) as (H0 & HK & H1).
  pose proof (exp_le_1 _ H0) as U0. pose proof (exp_le_1 _ HK) as UK.
  pose proof (exp_le_1 _ H1) as U1.
  pose proof (exp_pos (- beta * (sV0 S - Vshift_of S))) as P0.
  pose proof (exp_pos (- beta * (sVKP S - Vshift_of S))) as PK.
  pose proof (exp_pos (- beta * (sV1 S - Vshift_of S))) as P1.
  unfold partition_sum, boltzmann_weight. split; [| lra].
  destruct (exponent_zero_attained beta S) as [E | [E | E]];
    rewrite E, exp_0; lra.
Qed.

(** ** What the drivers return on the implemented path *)

Section SingleBead.

Variable RPMD_internal_potential : nHamiltonian -> MATRIX -> MATRIX -> R -> R.
Variable RPMD_internal_force : nHamiltonian -> MATRIX -> MATRIX -> R -> MATRIX.
Variables (H ch : nHamiltonian) (y_aux_var : list R) (q invM : MATRIX).
Variables beta eta a b c d : R.

Hypothesis allocated : ham_dia_mem_status H <> 0%Z.
Hypothesis two_states : ndia H = 2%Z.
Hypothesis one_bead : children H = [ch].

Let V0 := real (get (ham_dia ch) 0 0).
Let V1 := real (get (ham_dia ch) 1 1).
Let K := Cabs (get (ham_dia ch) 0 1).
Let y := nth 0 y_aux_var 0.
Let S := gated_surfaces beta eta a b c d V0 V1 K y.

Lemma preconditions_pass :
  (ham_dia_mem_status H =? 0)%Z = false /\ negb (ndia H =? 2)%Z = false.
Proof.
  split.
  - now apply Z.eqb_neq.
  - rewrite two_states. reflexivity.
Qed.

Lemma kcrpmd_effective_potential_single_bead :
  n_cols q = 1%nat ->
  kcrpmd_effective_potential RPMD_internal_potential H y_aux_var q invM beta eta a b c d
  = Ret (RPMD_internal_potential H q invM beta + Vshift_of S
         - ln (partition_sum beta S) / beta).
Proof.
  intros Hq. unfold kcrpmd_effective_potential.
  destruct preconditions_pass as [-> ->].
  unfold child. rewrite one_bead, Hq. reflexivity.
Qed.

Lemma kcrpmd_effective_force_single_bead :
  n_cols q = 1%nat ->
  let ndof := n_rows q in
  let F0 := fill_column (fun dof => - real (get (d1ham ch dof) 0 0)) ndof (MATRIX_new ndof 1) in
  let F1 := fill_column (fun dof => - real (get (d1ham ch dof) 1 1)) ndof (MATRIX_new ndof 1) in
  let FK := fill_column (fun dof => - real (get (d1ham ch dof) 0 1)) ndof (MATRIX_new ndof 1) in
  let FKP := constrained_FKP beta eta a c d V0 V1 K ndof 1 F0 F1 FK in
  kcrpmd_effective_force RPMD_internal_force H y_aux_var q invM beta eta a b c d
  = Ret (RPMD_internal_force H q invM beta
         + (boltzmann_weight beta S (sV0 S) *: F0
            + boltzmann_weight beta S (sVKP S) *: FKP
            + boltzmann_weight beta S (sV1 S) *: F1)
           /: partition_sum beta S)%M.
Proof.
  intros Hq. unfold kcrpmd_effective_force.
  destruct preconditions_pass as [-> ->].
  unfold child. rewrite one_bead, Hq. reflexivity.
Qed.

Lemma kcrpmd_effective_auxiliary_force_single_bead (stack : indeterminate) :
  kcrpmd_effective_auxiliary_force stack H y_aux_var beta eta a b c d
  = Ret [(boltzmann_weight beta S (sV0 S) * (F0_uninit stack + gate_force beta b (y + 1))
          + boltzmann_weight beta S (sVKP S) * (FKP_uninit stack + gate_force beta b y)
          + boltzmann_weight beta S (sV1 S) * (F1_uninit stack + gate_force beta b (y - 1)))
         / partition_sum beta S].
Proof.
  unfold kcrpmd_effective_auxiliary_force.
  destruct preconditions_pass as [-> ->].
  unfold child. rewrite one_bead. reflexivity.
Qed.

End SingleBead.


(** Adding [t] to each of the three values found on the stack adds [t] to
    the auxiliary force. *)
Lemma auxiliary_force_stack_shift (H ch : nHamiltonian) (y_aux_var : list R)
    (beta eta a b c d f0 f1 fkp t : R) :
  ham_dia_mem_status H <> 0%Z -> ndia H = 2%Z -> children H = [ch] ->
  exists r : R,
    kcrpmd_effective_auxiliary_force (mkIndeterminate f0 f1 fkp) H y_aux_var
      beta eta a b c d = Ret [r]
    /\ kcrpmd_effective_auxiliary_force (mkIndeterminate (f0 + t) (f1 + t) (fkp + t)) H
         y_aux_var beta eta a b c d = Ret [r + t].
Proof.
  intros Ha Hn Hc.
  rewrite !(kcrpmd_effective_auxiliary_force_single_bead H ch y_aux_var
              beta eta a b c d Ha Hn Hc).
  cbn [F0_uninit F1_uninit FKP_uninit].
  eexists. split; [reflexivity |].
  f_equal. f_equal.
  match goal with |- context [partition_sum beta ?S] => set (S0 := S) end.
  pose proof (partition_sum_pos beta S0) as HZ.
  unfold partition_sum in *. field. lra.
Qed.

(** C3: at one and the same call (same Hamiltonian, [y_aux_var], [beta],
    [eta], [a], [b], [c], [d]) the value returned by
    [kcrpmd_effective_auxiliary_force] changes with what the uninitialized
    accumulators [F0], [F1], [FKP] happen to hold: the routine is not a
    function of its inputs. *)
Theorem auxiliary_force_reads_uninitialized :
  let H := ring_polymer 1 [bead 0 0 (mkComplex 1 0) []] in
  exists r : R,
    kcrpmd_effective_auxiliary_force (mkIndeterminate 0 0 0) H [0] 1 1 1 1 1 1 = Ret [r]
    /\ kcrpmd_effective_auxiliary_force (mkIndeterminate 1 1 1) H [0] 1 1 1 1 1 1
       = Ret [r + 1]
    /\ kcrpmd_effective_auxiliary_force (mkIndeterminate 0 0 0) H [0] 1 1 1 1 1 1
       <> kcrpmd_effective_auxiliary_force (mkIndeterminate 1 1 1) H [0] 1 1 1 1 1 1.
Proof.
  intros H.
  destruct (auxiliary_force_stack_shift H (bead 0 0 (mkComplex 1 0) []) [0]
              1 1 1 1 1 1 0 0 0 1) as (r & E0 & E1);
    [discriminate | reflexivity | reflexivity |].
  replace (0 + 1) with 1 in E1 by ring.
  exists r. split; [exact E0 | split; [exact E1 |]].
  rewrite E0, E1. intros E. injection E as E. lra.
Qed.



(** ** [generate_m_matrices] *)

(** C1: for one bead with [V0 = 1.0], [V1 = 2.0], [K = 0.5] and
    [beta = 2.0], [generate_m_matrices] returns exactly one 2x2 matrix, with
    entries [e^-2], [-2 * 0.5 * e^-2], [-2 * 0.5 * e^-4] and [e^-4]. *)
Theorem generate_m_matrices_single_bead (H ch : nHamiltonian) :
  ham_dia_mem_status H <> 0%Z -> ndia H = 2%Z -> children H = [ch] ->
  real (get (ham_dia ch) 0 0) = 1.0 ->
  real (get (ham_dia ch) 1 1) = 2.0 ->
  Cabs (get (ham_dia ch) 0 1) = 0.5 ->
  exists M : MATRIX,
    generate_m_matrices H 2.0 = Ret [M]
    /\ n_rows M = 2%nat /\ n_cols M = 2%nat
    /\ mget M 0 0 = exp (- 2)
    /\ mget M 1 1 = exp (- 4)
    /\ mget M 0 1 = - 2 * 0.5 * exp (- 2)
    /\ mget M 1 0 = - 2 * 0.5 * exp (- 4).
Proof.
  intros Ha Hn Hc E0 E1 EK.
  unfold generate_m_matrices.
  destruct (preconditions_pass H Ha Hn) as [-> ->].
  rewrite Hc. cbn [List.length Nat.eqb map]. rewrite E0, E1, EK.
  eexists. split; [reflexivity |].
  cbv [mget mset MATRIX_new set_nth nth repeat Nat.mul Nat.add n_cols n_rows elts INR].
  repeat split.
  - f_equal. lra.
  - f_equal. lra.
  - match goal with
    | |- _ * exp ?x = _ * exp ?y => replace x with y by lra
    end. lra.
  - match goal with
    | |- _ * exp ?x = _ * exp ?y => replace x with y by lra
    end. lra.
Qed.

(** ** Diagnostics *)

(** Every way out of [kcrpmd_effective_force] through [exit] has status 0 and
    prints one of four fixed messages. *)
Lemma kcrpmd_effective_force_exits
    (RPMD_internal_force : nHamiltonian -> MATRIX -> MATRIX -> R -> MATRIX)
    (H : nHamiltonian) (y_aux_var : list R) (q invM : MATRIX)
    (beta eta a b c d : R) (status : Z) (msg : string) :
  kcrpmd_effective_force RPMD_internal_force H y_aux_var q invM beta eta a b c d
  = Exit status msg ->
  status = 0%Z
  /\ (msg = not_allocated "kcrpmd_effective_potential"
      \/ msg = only_ndia_2 "kcrpmd_effective_potential"
      \/ msg = not_for_quantum_nuclei "kcrpmd_effective_potential"
      \/ msg = size_mismatch).
Proof.
  unfold kcrpmd_effective_force.
  destruct (ham_dia_mem_status H =? 0)%Z; [intros E; inversion E; tauto |].
  destruct (negb (ndia H =? 2)%Z); [intros E; inversion E; tauto |].
  cbv zeta.
  destruct ((List.length (children H) =? 1)%nat && (n_cols q =? 1)%nat);
    [discriminate |].
  destruct (List.length (children H) =? n_cols q)%nat;
    intros E; inversion E; tauto.
Qed.

Lemma kcrpmd_effective_force_never_named
    (RPMD_internal_force : nHamiltonian -> MATRIX -> MATRIX -> R -> MATRIX)
    (H : nHamiltonian) (y_aux_var : list R) (q invM : MATRIX)
    (beta eta a b c d : R) (status : Z) (msg : string) :
  kcrpmd_effective_force RPMD_internal_force H y_aux_var q invM beta eta a b c d
  = Exit status msg ->
  identifies "kcrpmd_effective_force" msg = false.
Proof.
  intros E. apply kcrpmd_effective_force_exits in E.
  destruct E as (_ & [-> | [-> | [-> | ->]]]); vm_compute; reflexivity.
Qed.

(** Whichever precondition fails, [kcrpmd_effective_force] terminates the
    process with a diagnostic that does not contain its name. *)
Lemma kcrpmd_effective_force_precondition_failure
    (RPMD_internal_force : nHamiltonian -> MATRIX -> MATRIX -> R -> MATRIX)
    (H : nHamiltonian) (y_aux_var : list R) (q invM : MATRIX)
    (beta eta a b c d : R) :
  ham_dia_mem_status H = 0%Z \/ ndia H <> 2%Z
  \/ List.length (children H) <> 1%nat \/ n_cols q <> 1%nat ->
  exists msg : string,
    kcrpmd_effective_force RPMD_internal_force H y_aux_var q invM beta eta a b c d
    = Exit 0 msg
    /\ identifies "kcrpmd_effective_force" msg = false.
Proof.
  intros Hfail.
  destruct (kcrpmd_effective_force RPMD_internal_force H y_aux_var q invM
              beta eta a b c d) as [F | status msg] eqn:E.
  - exfalso. revert E. unfold kcrpmd_effective_force.
    destruct (Z.eqb_spec (ham_dia_mem_status H) 0); [discriminate |].
    destruct (Z.eqb_spec (ndia H) 2); cbn [negb]; [| discriminate].
    cbv zeta.
    destruct (Nat.eqb_spec (List.length (children H)) 1);
      destruct (Nat.eqb_spec (n_cols q) 1); cbn [andb];
      try (destruct (List.length (children H) =? n_cols q)%nat; discriminate).
    tauto.
  - pose proof (kcrpmd_effective_force_exits _ _ _ _ _ _ _ _ _ _ _ _ _ E) as [-> _].
    exists msg. split; [reflexivity |].
    eapply kcrpmd_effective_force_never_named. exact E.
Qed.

(** C9: with the diabatic Hamiltonian not allocated, [kcrpmd_effective_force]
    and [kcrpmd_effective_auxiliary_force] leave through [exit(0)] after
    printing a diagnostic that names [kcrpmd_effective_potential] and not the
    routine that was called; [kcrpmd_effective_potential] names itself. *)
Theorem diagnostics_name_the_wrong_routine :
  let H := ring_polymer 0 [bead 0 0 (mkComplex 1 0) []] in
  let q := MATRIX_new 1 1 in
  (exists msg : string,
      kcrpmd_effective_force (fun _ q _ _ => q) H [0] q q 1 1 1 1 1 1 = Exit 0 msg
      /\ identifies "kcrpmd_effective_force" msg = false
      /\ identifies "kcrpmd_effective_potential" msg = true)
  /\ (exists msg : string,
         kcrpmd_effective_auxiliary_force (mkIndeterminate 0 0 0) H [0] 1 1 1 1 1 1
         = Exit 0 msg
         /\ identifies "kcrpmd_effective_auxiliary_force" msg = false
         /\ identifies "kcrpmd_effective_potential" msg = true)
  /\ (exists msg : string,
         kcrpmd_effective_potential (fun _ _ _ _ => 0) H [0] q q 1 1 1 1 1 1
         = Exit 0 msg
         /\ identifies "kcrpmd_effective_potential" msg = true).
Proof.
  intros H q. split; [| split].
  - exists (not_allocated "kcrpmd_effective_potential").
    split; [reflexivity | split].
    + apply (kcrpmd_effective_force_never_named (fun _ q _ _ => q) H [0] q q
               1 1 1 1 1 1 0%Z). reflexivity.
    + vm_compute. reflexivity.
  - exists (not_allocated "kcrpmd_effective_potential").
    split; [reflexivity | split]; vm_compute; reflexivity.
  - exists (not_allocated "kcrpmd_effective_potential").
    split; [reflexivity |]. vm_compute. reflexivity.
Qed.

(** ** The overflow guards of the constraint force *)

Lemma sech_sqr (x : R) : sech x ^ 2 = 1 / cosh x ^ 2.
Proof. unfold sech. pose proof (cosh_pos x). field. lra. Qed.

Lemma guard_abs (k x : R) : 0 <= k -> k * Rabs x = Rabs (k * x).
Proof. intros Hk. rewrite Rabs_mult, (Rabs_pos_eq k); trivial. Qed.

Lemma constraint_FA_spec (beta a c K : R) (ndof ntraj : nat) (FK : MATRIX) :
  0 <= c ->
  constraint_FA beta a c K ndof ntraj FK = spec_constraint_FA beta a c K ndof ntraj FK.
Proof.
  intros Hc. unfold constraint_FA, spec_constraint_FA. cbv zeta.
  rewrite (guard_abs c (beta * K - 1) Hc).
  destruct (Rlt_dec (Rabs (c * (beta * K - 1))) 250) as [Hlt | Hge];
    destruct (Rge_dec (Rabs (c * (beta * K - 1))) 250) as [Hge' | Hlt'];
    try lra; trivial.
  f_equal. rewrite sech_sqr.
  pose proof (cosh_pos (- c * (beta * K - 1))). decimals. field. lra.
Qed.

(** C8 (amended): for [c >= 0] the update of [FA] is skipped exactly when
    [|c (beta K - 1)| >= 250], which leaves the zero matrix, and otherwise
    [FA = -(1/2) a c beta sech^2(-c (beta K - 1)) FK]; for [d >= 0] the
    second contribution to [FC] is likewise skipped exactly when
    [|d (beta K - 1)| >= 250]. *)
Theorem constraint_guards (beta eta a c d K : R) (ndof ntraj : nat) (FA FK : MATRIX) :
  0 <= c -> 0 <= d ->
  (Rabs (c * (beta * K - 1)) >= 250 ->
   constraint_FA beta a c K ndof ntraj FK = MATRIX_new ndof ntraj)
  /\ (Rabs (c * (beta * K - 1)) < 250 ->
      constraint_FA beta a c K ndof ntraj FK
      = (- (1 / 2) * a * c * beta * sech (- c * (beta * K - 1)) ^ 2 *: FK)%M)
  /\ (Rabs (d * (beta * K - 1)) >= 250 ->
      constraint_FC beta eta a c d K FA FK = constraint_FC_first beta eta a c d K FA)
  /\ (Rabs (d * (beta * K - 1)) < 250 ->
      constraint_FC beta eta a c d K FA FK
      = (constraint_FC_first beta eta a c d K FA
         + - (1 / 2) * d * beta * (sqrt (constraint_A beta a c K / 3.1415) * eta - 1)
           * sech (- d * (beta * K - 1)) ^ 2 *: FK)%M).
Proof.
  intros Hc Hd. split; [| split; [| split]].
  - intros Hge. rewrite constraint_FA_spec by assumption.
    unfold spec_constraint_FA. now destruct Rge_dec.
  - intros Hlt. rewrite constraint_FA_spec by assumption.
    unfold spec_constraint_FA. destruct Rge_dec; [lra | reflexivity].
  - intros Hge. unfold constraint_FC. cbv zeta.
    rewrite (guard_abs d (beta * K - 1) Hd).
    destruct Rlt_dec; [lra | reflexivity].
  - intros Hlt. unfold constraint_FC. cbv zeta.
    rewrite (guard_abs d (beta * K - 1) Hd).
    destruct Rlt_dec; [| lra].
    f_equal. f_equal. rewrite sech_sqr.
    pose proof (cosh_pos (- d * (beta * K - 1))). decimals. field. lra.
Qed.

(** C8, as first stated, fails for a negative [c]: with [c = -300],
    [beta = 1], [K = 2] one has [|c (beta K - 1)| = 300 >= 250], yet the
    guard [c * |beta K - 1| < 250] holds and [FA] is overwritten with a
    matrix that is not zero. *)
Lemma FA_guard_negative_c :
  let FK := mkMATRIX 1 1 [1] in
  Rabs (-300 * (1 * 2 - 1)) >= 250
  /\ constraint_FA 1 1 (-300) 2 1 1 FK
     = (- 0.5 * 1 * -300 * 1 / cosh (- -300 * (1 * 2 - 1)) ^ 2 *: FK)%M
  /\ constraint_FA 1 1 (-300) 2 1 1 FK <> MATRIX_new 1 1
  /\ constraint_FA 1 1 (-300) 2 1 1 FK <> spec_constraint_FA 1 1 (-300) 2 1 1 FK.
Proof.
  intros FK.
  assert (Habs : Rabs (-300 * (1 * 2 - 1)) = 300).
  { replace (-300 * (1 * 2 - 1)) with (- (300)) by ring.
    rewrite Rabs_Ropp. apply Rabs_pos_eq. lra. }
  assert (Hone : Rabs (1 * 2 - 1) = 1).
  { replace (1 * 2 - 1) with 1 by ring. apply Rabs_pos_eq. lra. }
  assert (Hrun : constraint_FA 1 1 (-300) 2 1 1 FK
                 = (- 0.5 * 1 * -300 * 1 / cosh (- -300 * (1 * 2 - 1)) ^ 2 *: FK)%M).
  { unfold constraint_FA. cbv zeta. rewrite Hone.
    destruct Rlt_dec; [reflexivity | lra]. }
  assert (Hnz : constraint_FA 1 1 (-300) 2 1 1 FK <> MATRIX_new 1 1).
  { rewrite Hrun. unfold mscale, MATRIX_new, FK. cbn [elts n_rows n_cols map repeat Nat.mul Nat.add].
    intros E. injection E as E.
    pose proof (cosh_pos (- -300 * (1 * 2 - 1))) as Hp.
    unfold Rdiv in E.
    match type of E with
    | context [/ ?t] =>
        assert (Hq : 0 < / t) by (apply Rinv_0_lt_compat; nra);
        set (u := / t) in *
    end.
    lra. }
  split; [rewrite Habs; lra | split; [exact Hrun | split; [exact Hnz |]]].
  unfold spec_constraint_FA. rewrite Habs.
  destruct Rge_dec; [exact Hnz | lra].
Qed.

(** ** The kinetic constraint *)

Lemma sin_31415_pos : 0 < sin 3.1415.
Proof.
  destruct (pre_sin_bound 3.1415 3) as [lower _]; [lra | lra |].
  eapply Rlt_le_trans; [| exact lower].
  unfold sin_approx, sin_term. cbn [sum_f_R0 Nat.mul Nat.add].
  repeat (rewrite fact_simpl, mult_INR).
  change (fact 0) with 1%nat.
  rewrite !INR_IZR_INZ. cbn [Z.of_nat Pos.of_succ_nat Pos.succ pow].
  lra.
Qed.

(** The literal of the source is not the number [PI]. *)
Lemma PI_neq_31415 : PI <> 3.1415.
Proof.
  intros E. pose proof sin_31415_pos as P.
  rewrite <- E, sin_PI in P. lra.
Qed.

(** The term added to [VKP] at line 129, written out: the square root is
    taken of [A / 3.1415]. *)
Lemma kinetic_constraint_as_coded (beta eta a c d V0 V1 K : R) :
  let w := (V0 - V1) / K in
  let A := 0.5 * a * (1 + tanh (- c * (beta * K - 1))) in
  let C := 1 + 0.5 * (sqrt (A / 3.1415) * eta - 1) * (1 + tanh (- d * (beta * K - 1))) in
  constrained_VKP beta eta a c d V0 V1 K
  = kinked_pair_VKP beta V0 V1 K + (A * w ^ 2 - ln C) / beta.
Proof. reflexivity. Qed.

Lemma constraint_at_unit_coupling :
  kinetic_constraint 1 1 2 1 1 0 0 1 = - ln (1 + 0.5 * (sqrt (1 / 3.1415) - 1))
  /\ spec_kinetic_constraint 1 1 2 1 1 0 0 1 = - ln (1 + 1 / 2 * (sqrt (1 / PI) - 1)).
Proof.
  split.
  - unfold kinetic_constraint, constraint_C, constraint_A, constraint_w. cbv zeta.
    repeat match goal with
           | |- context [tanh ?x] =>
               lazymatch x with 0 => fail | _ => replace x with 0 by lra end
           end.
    rewrite tanh_0.
    replace (0.5 * 2 * (1 + 0)) with 1 by lra.
    replace (1 * ((0 - 0) / 1) ^ 2) with 0 by (decimals; field).
    replace (sqrt (1 / 3.1415) * 1 - 1) with (sqrt (1 / 3.1415) - 1) by ring.
    replace (0.5 * (sqrt (1 / 3.1415) - 1) * (1 + 0))
      with (0.5 * (sqrt (1 / 3.1415) - 1)) by ring.
    unfold Rdiv at 1. rewrite Rinv_1. ring.
  - unfold spec_kinetic_constraint, spec_constraint_C. cbv zeta.
    repeat match goal with
           | |- context [tanh ?x] =>
               lazymatch x with 0 => fail | _ => replace x with 0 by lra end
           end.
    rewrite tanh_0.
    replace (1 / 2 * 2 * (1 + 0)) with 1 by lra.
    replace (1 * ((0 - 0) / 1) ^ 2) with 0 by field.
    replace (sqrt (1 / PI) * 1 - 1) with (sqrt (1 / PI) - 1) by ring.
    replace (1 / 2 * (sqrt (1 / PI) - 1) * (1 + 0))
      with (1 / 2 * (sqrt (1 / PI) - 1)) by ring.
    unfold Rdiv at 1. rewrite Rinv_1. ring.
Qed.

Lemma sqrt_inv_PI_neq : sqrt (1 / PI) <> sqrt (1 / 3.1415).
Proof.
  intros E. apply sqrt_inj in E.
  - apply PI_neq_31415. pose proof PI_RGT_0 as P.
    assert (E' : / PI = / 3.1415) by lra.
    apply Rinv_eq_reg in E'. exact E'.
  - pose proof PI_RGT_0 as P.
    assert (0 < / PI) by (apply Rinv_0_lt_compat; exact P). lra.
  - lra.
Qed.

(** C4: at [beta = 1], [eta = 1], [a = 2], [c = d = 1], [V0 = V1 = 0],
    [K = 1] (so [A = 1], [w = 0]) the term that the code adds to [VKP] is
    [- ln (1 + (sqrt (1 / 3.1415) - 1) / 2)], which differs from the term of
    the specification, [- ln (1 + (sqrt (1 / PI) - 1) / 2)]: the code divides
    [A] by the literal [3.1415], not by [PI]. *)
Theorem constraint_term_truncated_pi :
  constrained_VKP 1 1 2 1 1 0 0 1
  = kinked_pair_VKP 1 0 0 1 + - ln (1 + 0.5 * (sqrt (1 / 3.1415) - 1))
  /\ spec_kinetic_constraint 1 1 2 1 1 0 0 1 = - ln (1 + 1 / 2 * (sqrt (1 / PI) - 1))
  /\ constrained_VKP 1 1 2 1 1 0 0 1
     <> kinked_pair_VKP 1 0 0 1 + spec_kinetic_constraint 1 1 2 1 1 0 0 1.
Proof.
  destruct constraint_at_unit_coupling as [Ec Es].
  unfold constrained_VKP. rewrite Ec, Es.
  split; [reflexivity | split; [reflexivity |]].
  intros E.
  assert (El : ln (1 + 0.5 * (sqrt (1 / 3.1415) - 1))
               = ln (1 + 1 / 2 * (sqrt (1 / PI) - 1))) by lra.
  pose proof (sqrt_pos (1 / 3.1415)) as P1.
  pose proof (sqrt_pos (1 / PI)) as P2.
  apply ln_inv in El; [| lra | lra].
  apply sqrt_inv_PI_neq. lra.
Qed.

(** ** The scenario [V0 = V1 = 0], [K = 0.01], [beta = 1000] *)

Lemma exp_minus_10_small : 0 < exp (- 10) <= 1 / 11.
Proof.
  split; [apply exp_pos |].
  replace (- 10) with (- (10)) by lra.
  rewrite exp_Ropp. pose proof (exp_ineq1_le 10) as L.
  unfold Rdiv. rewrite Rmult_1_l.
  apply Rinv_le_contravar; lra.
Qed.

Lemma scenario_adiabats :
  adiabatic_Vg 0 0 0.01 = - 0.01 /\ adiabatic_Ve 0 0 0.01 = 0.01.
Proof.
  unfold adiabatic_Vg, adiabatic_Ve.
  replace ((0 - 0) ^ 2 + (2 * 0.01) ^ 2) with (0.02 ^ 2) by lra.
  rewrite sqrt_pow2 by lra. split; lra.
Qed.

Lemma scenario_regime : VKP_regime 1000 0 0 0.01 = StrongCoupling.
Proof. apply VKP_regime_strong. lra. Qed.

Lemma scenario_log_argument :
  let Vg := adiabatic_Vg 0 0 0.01 in
  let Ve := adiabatic_Ve 0 0 0.01 in
  1 + exp (- (1000) * (Ve - Vg)) - exp (- (1000) * (0 - Vg))
  - exp (- (1000) * (0 - Vg))
  = (1 - exp (- 10)) ^ 2.
Proof.
  destruct scenario_adiabats as [-> ->]. cbv zeta.
  replace (- (1000) * (0.01 - - 0.01)) with (- 10 + - 10) by lra.
  replace (- (1000) * (0 - - 0.01)) with (- 10) by lra.
  rewrite exp_plus. ring.
Qed.

Lemma scenario_kinked_pair_VKP :
  kinked_pair_VKP 1000 0 0 0.01 = - 0.01 - ln ((1 - exp (- 10)) ^ 2) / 1000.
Proof.
  unfold kinked_pair_VKP. rewrite scenario_regime.
  pose proof scenario_log_argument as E. cbv zeta in E |- *. rewrite E.
  destruct scenario_adiabats as [-> _]. reflexivity.
Qed.

Lemma scenario_log_bounds :
  0 < (1 - exp (- 10)) ^ 2 /\ - 10 < ln ((1 - exp (- 10)) ^ 2) < 0.
Proof.
  destruct exp_minus_10_small as [Hp Hs].
  set (u := exp (- 10)) in *.
  assert (HX : u < (1 - u) ^ 2 < 1) by nra.
  split; [lra |]. split.
  - replace (- 10) with (ln u) by (unfold u; apply ln_exp).
    apply ln_increasing; lra.
  - rewrite <- ln_1. apply ln_increasing; lra.
Qed.

Lemma scenario_switches :
  0 < constraint_A 1000 1 1 0.01 < 1
  /\ 0 < constraint_C 1000 1 1 1 1 0.01 < 1.
Proof.
  assert (HA : 0 < constraint_A 1000 1 1 0.01 < 1).
  { unfold constraint_A.
    pose proof (tanh_bounds (- (1) * (1000 * 0.01 - 1))). lra. }
  split; [exact HA |].
  unfold constraint_C. cbv zeta.
  set (A := constraint_A 1000 1 1 0.01) in *.
  pose proof (tanh_bounds (- (1) * (1000 * 0.01 - 1))) as Ht.
  set (t := tanh (- (1) * (1000 * 0.01 - 1))) in *.
  pose proof (sqrt_pos (A / 3.1415)) as Hs0.
  assert (Hs1 : sqrt (A / 3.1415) < 1).
  { rewrite <- sqrt_1. apply sqrt_lt_1_alt. lra. }
  set (s := sqrt (A / 3.1415)) in *.
  split; nra.
Qed.

Lemma scenario_kinetic_constraint :
  kinetic_constraint 1000 1 1 1 1 0 0 0.01
  = - ln (constraint_C 1000 1 1 1 1 0.01) / 1000
  /\ 0 < kinetic_constraint 1000 1 1 1 1 0 0 0.01.
Proof.
  assert (E : kinetic_constraint 1000 1 1 1 1 0 0 0.01
              = - ln (constraint_C 1000 1 1 1 1 0.01) / 1000).
  { unfold kinetic_constraint, constraint_w. cbv zeta.
    replace ((0 - 0) / 0.01) with 0 by lra.
    f_equal. ring. }
  split; [exact E |]. rewrite E.
  destruct scenario_switches as (_ & HC0 & HC1).
  assert (ln (constraint_C 1000 1 1 1 1 0.01) < 0).
  { rewrite <- ln_1. apply ln_increasing; lra. }
  lra.
Qed.

(** C5 (amended): in the scenario [V0 = V1 = 0], [K = 0.01], [beta = 1000],
    [eta = a = c = d = 1] the first regime is selected, every operation on
    the way to [VKP] stays in its domain, and [VKP] does not exceed
    [min(V0, V1)] plus the constraint term; it lies strictly above [Vg]. *)
Theorem kinked_pair_scenario :
  1000 * 0.01 > 1e-3
  /\ VKP_regime 1000 0.0 0.0 0.01 = StrongCoupling
  /\ constrained_VKP_defined 1000 1.0 1.0 1 1 0.0 0.0 0.01
  /\ constrained_VKP 1000 1.0 1.0 1 1 0.0 0.0 0.01
     <= Rmin 0.0 0.0 + kinetic_constraint 1000 1.0 1.0 1 1 0.0 0.0 0.01
  /\ adiabatic_Vg 0.0 0.0 0.01 < constrained_VKP 1000 1.0 1.0 1 1 0.0 0.0 0.01.
Proof.
  replace 0.0 with 0 by lra. replace 1.0 with 1 by lra.
  destruct scenario_switches as (HA & HC).
  destruct scenario_log_bounds as (HX & HL).
  destruct scenario_kinetic_constraint as (_ & Hk).
  destruct scenario_adiabats as [EVg EVe].
  split; [lra | split; [exact scenario_regime | split; [| split]]].
  - unfold constrained_VKP_defined. rewrite scenario_regime.
    pose proof scenario_log_argument as E. cbv zeta in E |- *. rewrite E.
    repeat split; lra.
  - unfold constrained_VKP. rewrite scenario_kinked_pair_VKP.
    rewrite Rmin_left by lra. lra.
  - unfold constrained_VKP. rewrite scenario_kinked_pair_VKP, EVg. lra.
Qed.

(** C5, as first stated, fails: in the scenario [VKP] is not at most [Vg]. *)
Lemma scenario_VKP_exceeds_Vg :
  ~ (constrained_VKP 1000 1.0 1.0 1 1 0.0 0.0 0.01 <= adiabatic_Vg 0.0 0.0 0.01).
Proof.
  replace 0.0 with 0 by lra. replace 1.0 with 1 by lra.
  destruct scenario_log_bounds as (HX & HL).
  destruct scenario_kinetic_constraint as (_ & Hk).
  destruct scenario_adiabats as [EVg _].
  unfold constrained_VKP. rewrite scenario_kinked_pair_VKP, EVg. lra.
Qed.

(** ** The statements at concrete inputs *)

Lemma Cabs_real (x : R) : 0 <= x -> Cabs (mkComplex x 0) = x.
Proof.
  intros Hx. unfold Cabs. cbn [real imag].
  replace (x * x + 0 * 0) with (x ^ 2) by ring.
  now apply sqrt_pow2.
Qed.

Lemma generate_m_matrices_single_bead_witness :
  let ch := bead 1.0 2.0 (mkComplex 0.5 0) [] in
  let H := ring_polymer 1 [ch] in
  (ham_dia_mem_status H <> 0%Z /\ ndia H = 2%Z /\ children H = [ch]
   /\ real (get (ham_dia ch) 0 0) = 1.0
   /\ real (get (ham_dia ch) 1 1) = 2.0
   /\ Cabs (get (ham_dia ch) 0 1) = 0.5)
  /\ exists M : MATRIX,
      generate_m_matrices H 2.0 = Ret [M]
      /\ n_rows M = 2%nat /\ n_cols M = 2%nat
      /\ mget M 0 0 = exp (- 2)
      /\ mget M 1 1 = exp (- 4)
      /\ mget M 0 1 = - 2 * 0.5 * exp (- 2)
      /\ mget M 1 0 = - 2 * 0.5 * exp (- 4).
Proof.
  intros ch H.
  assert (HK : Cabs (get (ham_dia ch) 0 1) = 0.5) by (apply Cabs_real; lra).
  split.
  - repeat split; try reflexivity; try discriminate. exact HK.
  - apply (generate_m_matrices_single_bead H ch);
      try reflexivity; try discriminate. exact HK.
Defined.

Lemma gate_branches_agree_witness :
  (1000 <> 0)
  /\ gate_inner 1000 50 (0.5 - 0) = gate_outer 1000 50 (0.5 - 0)
  /\ continuity_pt (fun t => heaviside_gate 1000 50 (t - 0)) 0.5.
Proof.
  assert (Hb : 1000 <> 0) by lra.
  destruct (gate_branches_agree 0.5 50 1000 0 Hb) as (_ & _ & _ & Ei & Eo & Hc).
  split; [exact Hb | split; [| exact Hc]].
  rewrite Ei, Eo. reflexivity.
Defined.


Lemma constraint_guards_witness :
  (0 <= 1 /\ 0 <= 1)
  /\ constraint_FA 1000 1 1 0.01 1 1 (mkMATRIX 1 1 [1])
     = (- (1 / 2) * 1 * 1 * 1000 * sech (- (1) * (1000 * 0.01 - 1)) ^ 2
        *: mkMATRIX 1 1 [1])%M.
Proof.
  assert (Hc : 0 <= 1) by lra.
  assert (Hg : Rabs (1 * (1000 * 0.01 - 1)) < 250).
  { rewrite Rabs_pos_eq; lra. }
  split; [split; assumption |].
  exact (proj1 (proj2 (constraint_guards 1000 1 1 1 1 0.01 1 1
                         (MATRIX_new 1 1) (mkMATRIX 1 1 [1]) Hc Hc)) Hg).
Defined.


(** * Further properties of the routines *)

(** ** More on [tanh] *)

Lemma tanh_alt (x : R) : tanh x = 1 - 2 / (exp (2 * x) + 1).
Proof.
  unfold tanh, sinh, cosh.
  replace (2 * x) with (x + x) by ring. rewrite exp_plus, exp_Ropp.
  pose proof (exp_pos x) as Hx.
  assert (exp x * exp x + 1 <> 0) by nra.
  field. repeat split; nra.
Qed.

Lemma tanh_le (x y : R) : x <= y -> tanh x <= tanh y.
Proof.
  intros [Hlt | ->]; [| lra].
  rewrite (tanh_alt x), (tanh_alt y).
  assert (He : exp (2 * x) < exp (2 * y)) by (apply exp_increasing; lra).
  pose proof (exp_pos (2 * x)) as Px. pose proof (exp_pos (2 * y)) as Py.
  assert (Hi : / (exp (2 * y) + 1) < / (exp (2 * x) + 1))
    by (apply Rinv_lt_contravar; nra).
  unfold Rdiv. lra.
Qed.

Lemma tanh_opp (x : R) : tanh (- x) = - tanh x.
Proof.
  unfold tanh. rewrite sinh_opp.
  replace (cosh (- x)) with (cosh x)
    by (unfold cosh; rewrite Ropp_involutive; lra).
  unfold Rdiv. ring.
Qed.

(** ** The adiabatic energies (lines 113-114) *)

Lemma adiabatic_gap (V0 V1 K : R) :
  let s := sqrt ((V0 - V1) ^ 2 + (2 * K) ^ 2) in
  0 <= s /\ s * s = (V0 - V1) ^ 2 + (2 * K) ^ 2
  /\ V0 - V1 <= s /\ V1 - V0 <= s.
Proof.
  intros s.
  assert (Hnn : 0 <= (V0 - V1) ^ 2 + (2 * K) ^ 2).
  { pose proof (pow2_ge_0 (V0 - V1)). pose proof (pow2_ge_0 (2 * K)). lra. }
  pose proof (sqrt_pos ((V0 - V1) ^ 2 + (2 * K) ^ 2)) as Hs.
  pose proof (sqrt_sqrt _ Hnn) as Hss. fold s in Hs, Hss.
  repeat split; trivial.
  - apply Rnot_lt_le. intros Hlt.
    assert (s * s < (V0 - V1) * (V0 - V1)) by (apply Rmult_le_0_lt_compat; lra).
    nra.
  - apply Rnot_lt_le. intros Hlt.
    assert (s * s < (V1 - V0) * (V1 - V0)) by (apply Rmult_le_0_lt_compat; lra).
    nra.
Qed.

(** X1: [Vg] and [Ve] bracket the diabatic energies, their sum is
    [V0 + V1], and [(V0 - Vg) (V1 - Vg) = K^2]: they are the two roots of
    the 2x2 secular equation. *)
Theorem adiabatic_energies_bracket (V0 V1 K : R) :
  adiabatic_Vg V0 V1 K <= Rmin V0 V1
  /\ Rmax V0 V1 <= adiabatic_Ve V0 V1 K
  /\ adiabatic_Vg V0 V1 K + adiabatic_Ve V0 V1 K = V0 + V1
  /\ (V0 - adiabatic_Vg V0 V1 K) * (V1 - adiabatic_Vg V0 V1 K) = K ^ 2
  /\ adiabatic_Vg V0 V1 K * adiabatic_Ve V0 V1 K = V0 * V1 - K ^ 2.
Proof.
  destruct (adiabatic_gap V0 V1 K) as (Hs & Hss & H01 & H10).
  unfold adiabatic_Vg, adiabatic_Ve.
  set (s := sqrt ((V0 - V1) ^ 2 + (2 * K) ^ 2)) in *.
  repeat split.
  - apply Rmin_glb; lra.
  - apply Rmax_lub; lra.
  - lra.
  - nra.
  - nra.
Qed.

(** ** The kinked-pair energy in its three regimes (lines 115-129) *)

Lemma exp_neg_unit (x : R) : 0 < x -> 0 < exp (- x) < 1.
Proof.
  intros Hx. split; [apply exp_pos |].
  rewrite <- exp_0. apply exp_increasing. lra.
Qed.

Lemma pow2_pos (x : R) : x <> 0 -> 0 < x ^ 2.
Proof. intros Hx. rewrite <- Rsqr_pow2. now apply Rlt_0_sqr. Qed.

Lemma ground_gaps_positive (V0 V1 K : R) :
  K <> 0 ->
  0 < V0 - adiabatic_Vg V0 V1 K /\ 0 < V1 - adiabatic_Vg V0 V1 K.
Proof.
  intros HK.
  destruct (adiabatic_energies_bracket V0 V1 K) as (Hmin & _ & _ & Hprod & _).
  pose proof (Rmin_l V0 V1). pose proof (Rmin_r V0 V1).
  assert (0 < K ^ 2) by (apply pow2_pos; exact HK).
  split; nra.
Qed.

Lemma strong_coupling_factorization (beta V0 V1 K : R) :
  let Vg := adiabatic_Vg V0 V1 K in
  let Ve := adiabatic_Ve V0 V1 K in
  1 + exp (- beta * (Ve - Vg)) - exp (- beta * (V0 - Vg)) - exp (- beta * (V1 - Vg))
  = (1 - exp (- beta * (V0 - Vg))) * (1 - exp (- beta * (V1 - Vg))).
Proof.
  intros Vg Ve.
  destruct (adiabatic_energies_bracket V0 V1 K) as (_ & _ & Hsum & _).
  fold Vg Ve in Hsum.
  replace (- beta * (Ve - Vg))
    with (- beta * (V0 - Vg) + - beta * (V1 - Vg)) by (rewrite <- (Rplus_0_r (- beta * (Ve - Vg))); nra).
  rewrite exp_plus. ring.
Qed.

Lemma strong_coupling_argument_range (beta V0 V1 K : R) :
  0 < beta -> K <> 0 ->
  let Vg := adiabatic_Vg V0 V1 K in
  let Ve := adiabatic_Ve V0 V1 K in
  0 < 1 + exp (- beta * (Ve - Vg)) - exp (- beta * (V0 - Vg))
      - exp (- beta * (V1 - Vg)) < 1.
Proof.
  intros Hb HK Vg Ve.
  destruct (ground_gaps_positive V0 V1 K HK) as [G0 G1]. fold Vg in G0, G1.
  unfold Vg, Ve. rewrite strong_coupling_factorization. fold Vg.
  assert (P0 : 0 < beta * (V0 - Vg)) by (apply Rmult_lt_0_compat; lra).
  assert (P1 : 0 < beta * (V1 - Vg)) by (apply Rmult_lt_0_compat; lra).
  pose proof (exp_neg_unit _ P0) as U0. pose proof (exp_neg_unit _ P1) as U1.
  replace (- (beta * (V0 - Vg))) with (- beta * (V0 - Vg)) in U0 by ring.
  replace (- (beta * (V1 - Vg))) with (- beta * (V1 - Vg)) in U1 by ring.
  split; nra.
Qed.

Lemma exp_le (x y : R) : x <= y -> exp x <= exp y.
Proof. intros [Hlt | ->]; [left; now apply exp_increasing | lra]. Qed.

(** With [beta K > 1e-3] and [beta |V0 - V1| <= 1000] both gaps
    [beta (V0 - Vg)] and [beta (V1 - Vg)] are at least [9e-10], since their
    product is [(beta K)^2] and their difference is [beta (V0 - V1)]. *)
Lemma strong_coupling_argument_margin (beta V0 V1 K : R) :
  0 < beta -> beta * K > 1e-3 -> beta * Rabs (V0 - V1) <= 1000 ->
  let Vg := adiabatic_Vg V0 V1 K in
  let Ve := adiabatic_Ve V0 V1 K in
  (1 - exp (- 9e-10)) ^ 2
  <= 1 + exp (- beta * (Ve - Vg)) - exp (- beta * (V0 - Vg))
     - exp (- beta * (V1 - Vg)).
Proof.
  intros Hb Hr Hg Vg Ve.
  assert (HK : K <> 0) by (intros ->; lra).
  destruct (ground_gaps_positive V0 V1 K HK) as [G0 G1]. fold Vg in G0, G1.
  destruct (adiabatic_energies_bracket V0 V1 K) as (_ & _ & _ & Hprod & _).
  fold Vg in Hprod.
  unfold Vg, Ve. rewrite strong_coupling_factorization. fold Vg.
  set (m0 := beta * (V0 - Vg)). set (m1 := beta * (V1 - Vg)).
  assert (P0 : 0 < m0) by (apply Rmult_lt_0_compat; lra).
  assert (P1 : 0 < m1) by (apply Rmult_lt_0_compat; lra).
  assert (Em : m0 * m1 = (beta * K) ^ 2).
  { unfold m0, m1.
    replace (beta * (V0 - Vg) * (beta * (V1 - Vg)))
      with (beta ^ 2 * ((V0 - Vg) * (V1 - Vg))) by ring.
    rewrite Hprod. ring. }
  assert (Hsq : 1e-6 < (beta * K) ^ 2) by nra.
  assert (Hd : m0 - m1 <= 1000 /\ m1 - m0 <= 1000).
  { pose proof (Rle_abs (V0 - V1)) as A1.
    pose proof (Rle_abs (V1 - V0)) as A2.
    rewrite (Rabs_minus_sym V1 V0) in A2.
    unfold m0, m1. split; nra. }
  assert (L0 : 9e-10 <= m0).
  { apply Rnot_lt_le. intros Hlt.
    assert (m0 * m1 <= 9e-10 * (1000 + 9e-10)) by (apply Rmult_le_compat; lra).
    lra. }
  assert (L1 : 9e-10 <= m1).
  { apply Rnot_lt_le. intros Hlt.
    assert (m1 * m0 <= 9e-10 * (1000 + 9e-10)) by (apply Rmult_le_compat; lra).
    lra. }
  assert (E0 : exp (- beta * (V0 - Vg)) <= exp (- 9e-10))
    by (apply exp_le; fold m0; unfold m0 in L0 |- *; lra).
  assert (E1 : exp (- beta * (V1 - Vg)) <= exp (- 9e-10))
    by (apply exp_le; unfold m1 in L1; lra).
  assert (U : 0 < exp (- 9e-10) < 1)
    by (split; [apply exp_pos | rewrite <- exp_0; apply exp_increasing; lra]).
  set (u := exp (- 9e-10)) in *.
  set (e0 := exp (- beta * (V0 - Vg))) in *.
  set (e1 := exp (- beta * (V1 - Vg))) in *.
  assert (0 <= (1 - u) * (e1 - u) + (u - e0) * (1 - e1) + (u - e1) * (1 - u)
          + (u - e0) * 0) by nra.
  assert (Hp : (1 - u) * (1 - u) <= (1 - e0) * (1 - e1))
    by (apply Rmult_le_compat; lra).
  lra.
Qed.



Lemma sinh_ratio_pos (x : R) : x <> 0 -> 0 < sinh x / x.
Proof.
  intros Hx. destruct (Rtotal_order x 0) as [Hneg | [-> | Hpos]]; [| tauto |].
  - pose proof (sinh_lt x 0 Hneg) as Hs. rewrite sinh_0 in Hs.
    replace (sinh x / x) with (- sinh x / - x) by (field; lra).
    apply Rdiv_lt_0_compat; lra.
  - pose proof (sinh_lt 0 x Hpos) as Hs. rewrite sinh_0 in Hs.
    apply Rdiv_lt_0_compat; lra.
Qed.

Lemma constraint_A_range (beta a c K : R) :
  0 <= a -> 0 <= constraint_A beta a c K <= a.
Proof.
  intros Ha. unfold constraint_A.
  pose proof (tanh_bounds (- c * (beta * K - 1))). split; nra.
Qed.

Lemma constraint_C_pos (beta eta a c d K : R) :
  0 <= a -> 0 <= eta -> 0 < constraint_C beta eta a c d K.
Proof.
  intros Ha He. unfold constraint_C. cbv zeta.
  pose proof (sqrt_pos (constraint_A beta a c K / 3.1415)) as Hs.
  pose proof (tanh_bounds (- d * (beta * K - 1))) as Ht.
  set (s := sqrt (constraint_A beta a c K / 3.1415)) in *.
  set (t := tanh (- d * (beta * K - 1))) in *.
  assert (0 <= s * eta) by (apply Rmult_le_pos; assumption).
  nra.
Qed.

Lemma constraint_w_bound (beta V0 V1 K : R) :
  0 < beta -> 1e-100 <= beta * K -> beta * Rabs (V0 - V1) <= 1000 ->
  0 < K /\ Rabs (constraint_w V0 V1 K) <= 1e103.
Proof.
  intros Hb HbK Hg.
  assert (HK : 0 < K).
  { apply Rnot_le_lt. intros HK0.
    assert (beta * K <= 0) by nra. lra. }
  split; [exact HK |].
  unfold constraint_w, Rdiv.
  assert (Hi : 0 < / K) by (apply Rinv_0_lt_compat; exact HK).
  rewrite Rabs_mult, (Rabs_pos_eq (/ K)) by lra.
  apply Rmult_le_reg_r with K; [exact HK |].
  rewrite Rmult_assoc, Rinv_l, Rmult_1_r by lra.
  apply Rmult_le_reg_l with beta; [exact Hb |].
  assert (E : 1000 = 1e103 * 1e-100) by lra.
  assert (1e103 * 1e-100 <= 1e103 * (beta * K))
    by (apply Rmult_le_compat_l; lra).
  replace (beta * (1e103 * K)) with (1e103 * (beta * K)) by ring.
  lra.
Qed.

Lemma constraint_C_margin (beta eta a c d K : R) :
  0 < a -> 0 < eta -> 0 <= c -> 0 <= d ->
  Rmin (1 / 2) (eta * sqrt (a / (2 * 3.1415))) <= constraint_C beta eta a c d K.
Proof.
  intros Ha He Hc Hd. unfold constraint_C. cbv zeta.
  pose proof (tanh_bounds (- d * (beta * K - 1))) as Htd.
  pose proof (sqrt_pos (constraint_A beta a c K / 3.1415)) as Hs0.
  destruct (Rle_dec 1 (beta * K)) as [Hge | Hlt].
  - assert (Hm : tanh (- d * (beta * K - 1)) <= 0).
    { rewrite <- tanh_0. apply tanh_le. nra. }
    eapply Rle_trans; [apply Rmin_l |].
    set (s := sqrt (constraint_A beta a c K / 3.1415)) in *.
    set (t := tanh (- d * (beta * K - 1))) in *.
    assert (0 <= s * eta) by (apply Rmult_le_pos; lra).
    nra.
  - assert (Hm : 0 <= tanh (- c * (beta * K - 1))).
    { rewrite <- tanh_0. apply tanh_le. nra. }
    assert (HA : a / (2 * 3.1415) <= constraint_A beta a c K / 3.1415).
    { unfold constraint_A. nra. }
    assert (Hs : sqrt (a / (2 * 3.1415)) <= sqrt (constraint_A beta a c K / 3.1415))
      by (apply sqrt_le_1_alt; exact HA).
    pose proof (sqrt_pos (a / (2 * 3.1415))) as Hs00.
    set (s0 := sqrt (a / (2 * 3.1415))) in *.
    set (s := sqrt (constraint_A beta a c K / 3.1415)) in *.
    set (t := tanh (- d * (beta * K - 1))) in *.
    assert (eta * s0 <= s * eta) by nra.
    destruct (Rle_dec 1 (s * eta)).
    + eapply Rle_trans; [apply Rmin_l |]. nra.
    + eapply Rle_trans; [apply Rmin_r |]. nra.
Qed.

(** With [a] and [eta] at least [1e-6] the bound of [constraint_C_margin] is
    at least [1e-10]. *)
Lemma constraint_C_floor (beta eta a c d K : R) :
  1e-6 <= a -> 1e-6 <= eta -> 0 <= c -> 0 <= d ->
  1e-10 <= constraint_C beta eta a c d K.
Proof.
  intros Ha He Hc Hd.
  assert (Ha0 : 0 < a) by lra. assert (He0 : 0 < eta) by lra.
  pose proof (constraint_C_margin beta eta a c d K Ha0 He0 Hc Hd) as Hm.
  assert (Hs : 1e-4 <= sqrt (a / (2 * 3.1415))).
  { assert (E : 1e-4 = sqrt (1e-4 * 1e-4)) by (rewrite sqrt_square; lra).
    rewrite E. apply sqrt_le_1_alt.
    apply Rmult_le_reg_r with (2 * 3.1415); [lra |].
    unfold Rdiv. rewrite (Rmult_assoc a), Rinv_l by lra. lra. }
  assert (Hp : 1e-6 * 1e-4 <= eta * sqrt (a / (2 * 3.1415)))
    by (apply Rmult_le_compat; lra).
  assert (1e-10 <= Rmin (1 / 2) (eta * sqrt (a / (2 * 3.1415))))
    by (apply Rmin_glb; lra).
  lra.
Qed.



(** ** The auxiliary gates as soft walls (lines 132-149) *)

Lemma softplus_lower (z : R) : Rmax 0 z < softplus z.
Proof.
  unfold softplus. pose proof (exp_pos z) as Hz.
  apply Rmax_case.
  - rewrite <- ln_1. apply ln_increasing; lra.
  - rewrite <- (ln_exp z) at 1. apply ln_increasing; lra.
Qed.

Lemma softplus_upper (z : R) : softplus z <= Rmax 0 z + ln 2.
Proof.
  unfold softplus. pose proof (exp_pos z) as Hz.
  assert (Hm : 1 + exp z <= 2 * exp (Rmax 0 z)).
  { destruct (Rle_dec 0 z) as [Hz0 | Hz0].
    - rewrite Rmax_right by lra. pose proof (exp_ge_1 z Hz0). lra.
    - rewrite Rmax_left by lra. rewrite exp_0.
      assert (exp z <= 1) by (apply exp_le_1; lra). lra. }
  replace (Rmax 0 z + ln 2) with (ln (2 * exp (Rmax 0 z))).
  - destruct Hm as [Hlt | Heq].
    + left. apply ln_increasing; lra.
    + right. now rewrite Heq.
  - rewrite ln_mult; [rewrite ln_exp; lra | lra | apply exp_pos].
Qed.

Lemma heaviside_gate_even (beta b x : R) :
  heaviside_gate beta b (- x) = heaviside_gate beta b x.
Proof. rewrite !heaviside_gate_softplus. now rewrite Rabs_Ropp. Qed.



(** ** Mirror symmetry of the three surfaces *)


(** ** The Boltzmann-blended energy (lines 158-160) *)

Lemma partition_sum_unshift (beta : R) (S : surfaces) :
  partition_sum beta S = exp (beta * Vshift_of S) * unshifted_sum beta S.
Proof.
  unfold partition_sum, boltzmann_weight, unshifted_sum.
  rewrite !Rmult_plus_distr_l, <- !exp_plus.
  f_equal; [f_equal |]; f_equal; ring.
Qed.

Lemma unshifted_sum_pos (beta : R) (S : surfaces) : 0 < unshifted_sum beta S.
Proof.
  unfold unshifted_sum.
  pose proof (exp_pos (- beta * sV0 S)). pose proof (exp_pos (- beta * sVKP S)).
  pose proof (exp_pos (- beta * sV1 S)). lra.
Qed.

Lemma blend_shift_free (beta : R) (S : surfaces) :
  beta <> 0 ->
  Vshift_of S - ln (partition_sum beta S) / beta
  = - ln (unshifted_sum beta S) / beta.
Proof.
  intros Hb. rewrite partition_sum_unshift.
  rewrite ln_mult; [| apply exp_pos | apply unshifted_sum_pos].
  rewrite ln_exp. field. exact Hb.
Qed.

Lemma partition_sum_gt_1 (beta : R) (S : surfaces) : 1 < partition_sum beta S.
Proof.
  unfold partition_sum, boltzmann_weight.
  pose proof (exp_pos (- beta * (sV0 S - Vshift_of S))) as P0.
  pose proof (exp_pos (- beta * (sVKP S - Vshift_of S))) as PK.
  pose proof (exp_pos (- beta * (sV1 S - Vshift_of S))) as P1.
  destruct (exponent_zero_attained beta S) as [E | [E | E]];
    rewrite E, exp_0 in *; lra.
Qed.





(** ** The gate force is the slope of the gate (lines 385-402) *)

Lemma derivable_pt_lim_eq (f : R -> R) (x l l' : R) :
  l = l' -> derivable_pt_lim f x l -> derivable_pt_lim f x l'.
Proof. now intros ->. Qed.

Lemma affine_derivative (p q x : R) :
  derivable_pt_lim (fun t => p * (2 * (q * t) - 1)) x (2 * p * q).
Proof.
  intros eps Heps. exists (mkposreal 1 Rlt_0_1). intros h Hh _.
  replace ((p * (2 * (q * (x + h)) - 1) - p * (2 * (q * x) - 1)) / h - 2 * p * q)
    with 0 by (field; exact Hh).
  rewrite Rabs_R0. exact Heps.
Qed.

Lemma softplus_derivative (z : R) :
  derivable_pt_lim softplus z (exp z / (1 + exp z)).
Proof.
  pose proof (exp_pos z) as Hz.
  apply (derivable_pt_lim_eq _ _ (/ (1 + exp z) * (0 + exp z))).
  - field. lra.
  - apply (derivable_pt_lim_comp (fun t => 1 + exp t) ln).
    + apply (derivable_pt_lim_plus (fct_cte 1) exp).
      * apply derivable_pt_lim_const.
      * apply derivable_pt_lim_exp.
    + apply derivable_pt_lim_ln. lra.
Qed.

Lemma sigmoid_tanh (u : R) : exp (2 * u) / (1 + exp (2 * u)) = (1 + tanh u) / 2.
Proof.
  unfold tanh, sinh, cosh.
  replace (2 * u) with (u + u) by ring. rewrite exp_plus, exp_Ropp.
  pose proof (exp_pos u) as Hu.
  assert (exp u * exp u + 1 <> 0) by nra.
  field. repeat split; nra.
Qed.

(** The gate along the ray on which [|t| = q t], [q] being [1] or [-1]. *)
Lemma gate_ray_derivative (beta b q x : R) :
  derivable_pt_lim (fun t => softplus (b * (2 * (q * t) - 1)) / beta) x
    (q * b * (1 + tanh (b * (q * x - 0.5))) / beta).
Proof.
  apply (derivable_pt_lim_eq _ _
           (/ beta * (exp (b * (2 * (q * x) - 1)) / (1 + exp (b * (2 * (q * x) - 1)))
                      * (2 * b * q)))).
  - replace (b * (2 * (q * x) - 1)) with (2 * (b * (q * x - 0.5))) by lra.
    rewrite sigmoid_tanh.
    replace ((1 + tanh (b * (q * x - 0.5))) / 2 * (2 * b * q))
      with ((1 + tanh (b * (q * x - 0.5))) * (b * q)) by field.
    unfold Rdiv. ring.
  - apply (derivable_pt_lim_ext
             (mult_real_fct (/ beta) (fun t => softplus (b * (2 * (q * t) - 1))))).
    + intros t. unfold mult_real_fct, Rdiv. ring.
    + apply derivable_pt_lim_scal.
      apply (derivable_pt_lim_comp (fun t => b * (2 * (q * t) - 1)) softplus).
      * apply affine_derivative.
      * apply softplus_derivative.
Qed.

Lemma gate_slope_right (beta b x : R) :
  0 < x ->
  derivable_pt_lim (fun t => softplus (b * (2 * Rabs t - 1)) / beta) x
    (b * (1 + tanh (b * (Rabs x - 0.5))) / beta).
Proof.
  intros Hp.
  apply (derivable_pt_lim_locally_ext
           (fun t => softplus (b * (2 * (1 * t) - 1)) / beta) _ x 0 (x + 1)).
  - lra.
  - intros t Ht. rewrite Rabs_pos_eq by lra. now rewrite Rmult_1_l.
  - apply (derivable_pt_lim_eq _ _ (1 * b * (1 + tanh (b * (1 * x - 0.5))) / beta)).
    + rewrite (Rabs_pos_eq x) by lra. rewrite !Rmult_1_l. reflexivity.
    + apply gate_ray_derivative.
Qed.

Lemma gate_slope_left (beta b x : R) :
  x < 0 ->
  derivable_pt_lim (fun t => softplus (b * (2 * Rabs t - 1)) / beta) x
    (- (b * (1 + tanh (b * (Rabs x - 0.5))) / beta)).
Proof.
  intros Hn.
  apply (derivable_pt_lim_locally_ext
           (fun t => softplus (b * (2 * (-1 * t) - 1)) / beta) _ x (x - 1) 0).
  - lra.
  - intros t Ht. rewrite Rabs_left by lra. f_equal. f_equal. ring.
  - apply (derivable_pt_lim_eq _ _ (-1 * b * (1 + tanh (b * (-1 * x - 0.5))) / beta)).
    + rewrite (Rabs_left x) by lra.
      replace (-1 * x) with (- x) by ring. unfold Rdiv. ring.
    + apply gate_ray_derivative.
Qed.

Lemma heaviside_gate_slope (beta b x : R) :
  x <> 0 -> derivable_pt_lim (heaviside_gate beta b) x (- gate_force beta b x).
Proof.
  intros Hx.
  apply (derivable_pt_lim_ext (fun t => softplus (b * (2 * Rabs t - 1)) / beta)).
  { intros t. symmetry. apply heaviside_gate_softplus. }
  unfold gate_force. destruct (Rgt_dec x 0.0) as [Hpos | Hneg].
  - apply (derivable_pt_lim_eq _ _ (b * (1 + tanh (b * (Rabs x - 0.5))) / beta));
      [unfold Rdiv; ring | apply gate_slope_right; lra].
  - apply gate_slope_left. lra.
Qed.

(** X8: away from the center of a gate ([x <> 0]) the force term that
    [kcrpmd_effective_auxiliary_force] accumulates for it is minus the
    derivative of the penalty that the three routines add to the
    corresponding surface. *)
Theorem gate_force_is_minus_slope (beta b x : R) :
  beta <> 0 -> x <> 0 ->
  derivable_pt_lim (heaviside_gate beta b) x (- gate_force beta b x).
Proof.
  intros _ Hx.
  apply (derivable_pt_lim_ext (fun t => softplus (b * (2 * Rabs t - 1)) / beta)).
  { intros t. symmetry. apply heaviside_gate_softplus. }
  destruct (Rtotal_order x 0) as [Hneg | [E0 | Hpos]]; [| tauto |].
  - unfold gate_force. destruct (Rgt_dec x 0.0) as [Hgt | _]; [lra |].
    now apply gate_slope_left.
  - unfold gate_force. destruct (Rgt_dec x 0.0) as [_ | Hle]; [| lra].
    apply (derivable_pt_lim_eq _ _ (b * (1 + tanh (b * (Rabs x - 0.5))) / beta));
      [unfold Rdiv; ring |].
    now apply gate_slope_right.
Qed.

Lemma gate_force_is_minus_slope_witness :
  (1000 <> 0 /\ 0.5 <> 0)
  /\ derivable_pt_lim (heaviside_gate 1000 50) 0.5 (- gate_force 1000 50 0.5).
Proof.
  assert (Hb : 1000 <> 0) by lra. assert (Hx : 0.5 <> 0) by lra.
  split; [split; assumption |].
  exact (gate_force_is_minus_slope 1000 50 0.5 Hb Hx).
Defined.

(** ** The auxiliary force is minus the slope of the effective potential *)

Lemma boltzmann_factor_derivative (beta : R) (v : R -> R) (y l : R) :
  derivable_pt_lim v y l ->
  derivable_pt_lim (fun t => exp (- beta * v t)) y (exp (- beta * v y) * (- beta * l)).
Proof.
  intros Hv.
  apply (derivable_pt_lim_comp (mult_real_fct (- beta) v) exp).
  - now apply derivable_pt_lim_scal.
  - apply derivable_pt_lim_exp.
Qed.

Lemma blend_derivative (beta r : R) (v0 vK v1 : R -> R) (y l0 lK l1 : R) :
  beta <> 0 ->
  derivable_pt_lim v0 y l0 -> derivable_pt_lim vK y lK -> derivable_pt_lim v1 y l1 ->
  derivable_pt_lim
    (fun t => r - ln (exp (- beta * v0 t) + exp (- beta * vK t) + exp (- beta * v1 t))
                  / beta) y
    ((exp (- beta * v0 y) * l0 + exp (- beta * vK y) * lK + exp (- beta * v1 y) * l1)
     / (exp (- beta * v0 y) + exp (- beta * vK y) + exp (- beta * v1 y))).
Proof.
  intros Hb H0 HK H1.
  pose proof (exp_pos (- beta * v0 y)) as P0.
  pose proof (exp_pos (- beta * vK y)) as PK.
  pose proof (exp_pos (- beta * v1 y)) as P1.
  set (U := fun t => exp (- beta * v0 t) + exp (- beta * vK t) + exp (- beta * v1 t)).
  assert (HU : derivable_pt_lim U y
                 (exp (- beta * v0 y) * (- beta * l0)
                  + exp (- beta * vK y) * (- beta * lK)
                  + exp (- beta * v1 y) * (- beta * l1))).
  { apply (derivable_pt_lim_plus
             (fun t => exp (- beta * v0 t) + exp (- beta * vK t))
             (fun t => exp (- beta * v1 t))).
    - apply (derivable_pt_lim_plus (fun t => exp (- beta * v0 t))
               (fun t => exp (- beta * vK t)));
        now apply boltzmann_factor_derivative.
    - now apply boltzmann_factor_derivative. }
  assert (Hln : derivable_pt_lim (fun t => ln (U t)) y
                  (/ U y * (exp (- beta * v0 y) * (- beta * l0)
                            + exp (- beta * vK y) * (- beta * lK)
                            + exp (- beta * v1 y) * (- beta * l1)))).
  { apply (derivable_pt_lim_comp U ln); [exact HU |].
    apply derivable_pt_lim_ln. unfold U. lra. }
  apply (derivable_pt_lim_ext
           (fun t => fct_cte r t - mult_real_fct (/ beta) (fun s => ln (U s)) t)).
  { intros t. unfold fct_cte, mult_real_fct, U, Rdiv. ring. }
  apply (derivable_pt_lim_eq _ _
           (0 - / beta * (/ U y * (exp (- beta * v0 y) * (- beta * l0)
                                   + exp (- beta * vK y) * (- beta * lK)
                                   + exp (- beta * v1 y) * (- beta * l1))))).
  { unfold U. field. split; lra. }
  apply (derivable_pt_lim_minus (fct_cte r)
           (mult_real_fct (/ beta) (fun s => ln (U s)))).
  - apply derivable_pt_lim_const.
  - now apply derivable_pt_lim_scal.
Qed.

Lemma shifted_gate_slope (beta b c0 m y : R) :
  y + m <> 0 ->
  derivable_pt_lim (fun t => c0 + heaviside_gate beta b (t + m)) y
    (- gate_force beta b (y + m)).
Proof.
  intros Hy.
  apply (derivable_pt_lim_eq _ _ (0 + - gate_force beta b (y + m) * (1 + 0)));
    [ring |].
  apply (derivable_pt_lim_plus (fct_cte c0) (fun t => heaviside_gate beta b (t + m))).
  - apply derivable_pt_lim_const.
  - apply (derivable_pt_lim_comp (fun t => t + m) (heaviside_gate beta b)).
    + apply (derivable_pt_lim_plus id (fct_cte m)).
      * apply derivable_pt_lim_id.
      * apply derivable_pt_lim_const.
    + now apply heaviside_gate_slope.
Qed.

Lemma boltzmann_weight_unshift (beta : R) (S : surfaces) (V : R) :
  boltzmann_weight beta S V = exp (beta * Vshift_of S) * exp (- beta * V).
Proof.
  unfold boltzmann_weight. rewrite <- exp_plus. f_equal. ring.
Qed.

(** X9: on the implemented path, with [beta <> 0] and [y] none of [-1], [0],
    [1], the value returned by [kcrpmd_effective_potential] is
    differentiable in the auxiliary coordinate and its derivative is minus
    what [kcrpmd_effective_auxiliary_force] returns when its accumulators
    start from zero. *)
Theorem auxiliary_force_is_minus_gradient
    (RPMD_internal_potential : nHamiltonian -> MATRIX -> MATRIX -> R -> R)
    (H ch : nHamiltonian) (q invM : MATRIX) (beta eta a b c d y : R) :
  beta <> 0 -> y + 1 <> 0 -> y <> 0 -> y - 1 <> 0 ->
  ham_dia_mem_status H <> 0%Z -> ndia H = 2%Z -> children H = [ch] ->
  n_cols q = 1%nat ->
  derivable_pt_lim
    (fun t => returned_value
                (kcrpmd_effective_potential RPMD_internal_potential H [t] q invM
                   beta eta a b c d)) y
    (- returned_component
         (kcrpmd_effective_auxiliary_force zero_stack H [y] beta eta a b c d)).
Proof.
  intros Hb Hy0 HyK Hy1 Ha Hn Hc Hq.
  set (V0 := real (get (ham_dia ch) 0 0)).
  set (V1 := real (get (ham_dia ch) 1 1)).
  set (K := Cabs (get (ham_dia ch) 0 1)).
  set (VK := kinked_pair_VKP beta V0 V1 K + kinetic_constraint beta eta a c d V0 V1 K).
  set (r := RPMD_internal_potential H q invM beta).
  set (v0 := fun t => V0 + heaviside_gate beta b (t + 1)).
  set (vK := fun t => VK + heaviside_gate beta b (t + 0)).
  set (v1 := fun t => V1 + heaviside_gate beta b (t + -1)).
  assert (ES : forall t, gated_surfaces beta eta a b c d V0 V1 K t
                         = mkSurfaces (v0 t) (vK t) (v1 t)).
  { intros t. unfold gated_surfaces, v0, vK, v1, VK.
    replace (t + 0) with t by ring. replace (t + -1) with (t - 1) by ring.
    reflexivity. }
  apply (derivable_pt_lim_ext
           (fun t => r - ln (exp (- beta * v0 t) + exp (- beta * vK t)
                             + exp (- beta * v1 t)) / beta)).
  { intros t.
    rewrite (kcrpmd_effective_potential_single_bead _ H ch) by assumption.
    cbn [returned_value nth]. fold V0 V1 K r.
    pose proof (blend_shift_free beta (gated_surfaces beta eta a b c d V0 V1 K t) Hb) as E.
    rewrite ES in E |- *. unfold unshifted_sum in E. cbn [sV0 sVKP sV1] in E.
    unfold Rdiv in *. lra. }
  rewrite (kcrpmd_effective_auxiliary_force_single_bead H ch) by assumption.
  cbn [returned_component nth zero_stack F0_uninit F1_uninit FKP_uninit].
  fold V0 V1 K. rewrite ES.
  set (S := mkSurfaces (v0 y) (vK y) (v1 y)).
  rewrite partition_sum_unshift, !boltzmann_weight_unshift.
  unfold unshifted_sum. cbn [sV0 sVKP sV1].
  pose proof (exp_pos (beta * Vshift_of S)) as Ps.
  pose proof (exp_pos (- beta * v0 y)) as P0.
  pose proof (exp_pos (- beta * vK y)) as PK.
  pose proof (exp_pos (- beta * v1 y)) as P1.
  apply (derivable_pt_lim_eq _ _
           ((exp (- beta * v0 y) * - gate_force beta b (y + 1)
             + exp (- beta * vK y) * - gate_force beta b (y + 0)
             + exp (- beta * v1 y) * - gate_force beta b (y + -1))
            / (exp (- beta * v0 y) + exp (- beta * vK y) + exp (- beta * v1 y)))).
  { replace (y + 0) with y by ring. replace (y + -1) with (y - 1) by ring.
    cbn [S sV0 sVKP sV1].
    set (s := Vshift_of S) in *. field. split; lra. }
  apply blend_derivative; [exact Hb | | |]; apply shifted_gate_slope.
  - exact Hy0.
  - replace (y + 0) with y by ring. exact HyK.
  - replace (y + -1) with (y - 1) by ring. exact Hy1.
Qed.

Lemma auxiliary_force_is_minus_gradient_witness :
  let ch := bead 0 0.002 (mkComplex 0.01 0) [] in
  let H := ring_polymer 1 [ch] in
  let q := MATRIX_new 1 1 in
  (1000 <> 0 /\ 0.3 + 1 <> 0 /\ 0.3 <> 0 /\ 0.3 - 1 <> 0
   /\ ham_dia_mem_status H <> 0%Z /\ ndia H = 2%Z /\ children H = [ch]
   /\ n_cols q = 1%nat)
  /\ derivable_pt_lim
       (fun t => returned_value
                   (kcrpmd_effective_potential (fun _ _ _ _ => 0) H [t] q q
                      1000 1 1 50 1 1)) 0.3
       (- returned_component
            (kcrpmd_effective_auxiliary_force zero_stack H [0.3] 1000 1 1 50 1 1)).
Proof.
  intros ch H q.
  assert (Hb : 1000 <> 0) by lra.
  assert (H0 : 0.3 + 1 <> 0) by lra.
  assert (HK : 0.3 <> 0) by lra.
  assert (H1 : 0.3 - 1 <> 0) by lra.
  assert (Ha : ham_dia_mem_status H <> 0%Z) by discriminate.
  split; [repeat split; trivial |].
  exact (auxiliary_force_is_minus_gradient (fun _ _ _ _ => 0) H ch q q
           1000 1 1 50 1 1 0.3 Hb H0 HK H1 Ha eq_refl eq_refl eq_refl).
Defined.

(** ** Size of the auxiliary force *)

Lemma Rabs_bounds (g M : R) : Rabs g <= M -> - M <= g <= M.
Proof.
  intros Hg. pose proof (Rle_abs g). pose proof (Rle_abs (- g)) as Hn.
  rewrite Rabs_Ropp in Hn. lra.
Qed.

Lemma weighted_average_bound (w0 wK w1 g0 gK g1 M : R) :
  0 < w0 -> 0 < wK -> 0 < w1 ->
  Rabs g0 <= M -> Rabs gK <= M -> Rabs g1 <= M ->
  Rabs ((w0 * g0 + wK * gK + w1 * g1) / (w0 + wK + w1)) <= M.
Proof.
  intros H0 HK H1 B0 BK B1.
  apply Rabs_bounds in B0. apply Rabs_bounds in BK. apply Rabs_bounds in B1.
  apply Rabs_le.
  assert (HZ : 0 < w0 + wK + w1) by lra.
  assert (Hi : 0 < / (w0 + wK + w1)) by (apply Rinv_0_lt_compat; exact HZ).
  split.
  - apply Rmult_le_reg_r with (w0 + wK + w1); [exact HZ |].
    unfold Rdiv. rewrite Rmult_assoc, Rinv_l by lra. nra.
  - apply Rmult_le_reg_r with (w0 + wK + w1); [exact HZ |].
    unfold Rdiv. rewrite Rmult_assoc, Rinv_l by lra. nra.
Qed.

Lemma gate_force_bound (beta b x : R) :
  0 < beta -> Rabs (gate_force beta b x) <= 2 * Rabs b / beta.
Proof.
  intros Hb. unfold gate_force.
  pose proof (tanh_bounds (b * (Rabs x - 0.5))) as Ht.
  set (t := tanh (b * (Rabs x - 0.5))) in *.
  assert (Hi : 0 < / beta) by (apply Rinv_0_lt_compat; exact Hb).
  assert (E : forall u, Rabs (u * (1 + t) / beta) = Rabs u * (1 + t) * / beta).
  { intros u. unfold Rdiv. rewrite !Rabs_mult.
    rewrite (Rabs_pos_eq (1 + t)) by lra. rewrite (Rabs_pos_eq (/ beta)) by lra.
    reflexivity. }
  pose proof (Rabs_pos b) as Hab.
  destruct (Rgt_dec x 0.0); rewrite E; rewrite ?Rabs_Ropp; unfold Rdiv.
  - apply Rmult_le_compat_r; [lra | nra].
  - apply Rmult_le_compat_r; [lra | nra].
Qed.



(** ** When the routines return and when they exit *)

Ltac split_guards H q :=
  destruct (Z.eqb_spec (ham_dia_mem_status H) 0);
  [| destruct (Z.eqb_spec (ndia H) 2); cbn [negb];
     [destruct (Nat.eqb_spec (List.length (children H)) 1);
      destruct (Nat.eqb_spec (n_cols q) 1); cbn [andb];
      try destruct (Nat.eqb_spec (List.length (children H)) (n_cols q)) |]].

Ltac settle_outcome :=
  intros;
  repeat match goal with
         | E : exists _, _ |- _ => destruct E
         | E : _ /\ _ |- _ => destruct E
         end;
  try discriminate;
  try match goal with
      | E : Exit _ _ = Exit _ _ |- _ => vm_compute in E; discriminate E
      end;
  try (eexists; reflexivity);
  try reflexivity; try congruence; try lia; try tauto;
  try (intros [? ?]; try congruence; lia).


(** X12: [kcrpmd_effective_force] exits on exactly the inputs on which
    [kcrpmd_effective_potential] exits, with the same status and the same
    diagnostic text; with a non-empty [y_aux_var] and a derivative matrix of
    the child for every row of [q], it returns on exactly the inputs on
    which [kcrpmd_effective_potential] returns. *)
Theorem force_exits_like_potential
    (RPMD_internal_potential : nHamiltonian -> MATRIX -> MATRIX -> R -> R)
    (RPMD_internal_force : nHamiltonian -> MATRIX -> MATRIX -> R -> MATRIX)
    (H : nHamiltonian) (y_aux_var : list R) (q invM : MATRIX)
    (beta eta a b c d : R) :
  (forall (status : Z) (msg : string),
      kcrpmd_effective_force RPMD_internal_force H y_aux_var q invM beta eta a b c d
      = Exit status msg
      <-> kcrpmd_effective_potential RPMD_internal_potential H y_aux_var q invM
            beta eta a b c d = Exit status msg)
  /\ (y_aux_var <> [] ->
      (n_rows q <= List.length (d1ham_dia (child H 0)))%nat ->
      ((exists F : MATRIX,
           kcrpmd_effective_force RPMD_internal_force H y_aux_var q invM
             beta eta a b c d = Ret F)
       <-> (exists v : R,
               kcrpmd_effective_potential RPMD_internal_potential H y_aux_var q invM
                 beta eta a b c d = Ret v))).
Proof.
  unfold kcrpmd_effective_force, kcrpmd_effective_potential.
  split_guards H q; cbv zeta; repeat split; settle_outcome.
Qed.



(** X15: whenever one of the four routines exits, the exit status is 0, the
    status of a successful run. *)
Theorem exits_report_status_zero
    (RPMD_internal_potential : nHamiltonian -> MATRIX -> MATRIX -> R -> R)
    (RPMD_internal_force : nHamiltonian -> MATRIX -> MATRIX -> R -> MATRIX)
    (stack : indeterminate) (H : nHamiltonian) (y_aux_var : list R)
    (q invM : MATRIX) (beta eta a b c d : R) (status : Z) (msg : string) :
  (generate_m_matrices H beta = Exit status msg -> status = 0%Z)
  /\ (kcrpmd_effective_potential RPMD_internal_potential H y_aux_var q invM
        beta eta a b c d = Exit status msg -> status = 0%Z)
  /\ (kcrpmd_effective_force RPMD_internal_force H y_aux_var q invM
        beta eta a b c d = Exit status msg -> status = 0%Z)
  /\ (kcrpmd_effective_auxiliary_force stack H y_aux_var beta eta a b c d
      = Exit status msg -> status = 0%Z).
Proof.
  unfold generate_m_matrices, kcrpmd_effective_potential, kcrpmd_effective_force,
    kcrpmd_effective_auxiliary_force.
  split_guards H q; cbv zeta;
    try destruct (Nat.eqb_spec (List.length (children H)) 0);
    try destruct (Nat.eqb_spec (List.length (children H)) 1);
    repeat split; intros E; try discriminate E; now inversion E.
Qed.

(** ** The matrices of [generate_m_matrices] (lines 38-75) *)

Lemma m_matrix_entries (e00 e01 e10 e11 : R) :
  let M := mset (mset (mset (mset (MATRIX_new 2 2) 0 0 e00) 0 1 e01) 1 0 e10) 1 1 e11 in
  n_rows M = 2%nat /\ n_cols M = 2%nat
  /\ mget M 0 0 = e00 /\ mget M 0 1 = e01 /\ mget M 1 0 = e10 /\ mget M 1 1 = e11.
Proof. cbv. repeat split. Qed.



(** X17: a Hamiltonian without children and a parent that has this
    Hamiltonian as its only child get the same M matrix. *)
Theorem generate_m_matrices_childless_as_single_bead (P H : nHamiltonian) (beta : R) :
  ham_dia_mem_status H <> 0%Z -> ndia H = 2%Z -> children H = [] ->
  ham_dia_mem_status P <> 0%Z -> ndia P = 2%Z -> children P = [H] ->
  generate_m_matrices P beta = generate_m_matrices H beta.
Proof.
  intros Ha Hn Hc Pa Pn Pc. unfold generate_m_matrices.
  destruct (preconditions_pass H Ha Hn) as [-> ->].
  destruct (preconditions_pass P Pa Pn) as [-> ->].
  rewrite Hc, Pc. cbn [List.length Nat.eqb map INR].
  replace (- beta / 1) with (- beta) by (unfold Rdiv; rewrite Rinv_1; ring).
  reflexivity.
Qed.

Lemma generate_m_matrices_childless_as_single_bead_witness :
  let H := bead 1 2 (mkComplex 0.5 0) [] in
  let P := ring_polymer 1 [H] in
  (ham_dia_mem_status H <> 0%Z /\ ndia H = 2%Z /\ children H = []
   /\ ham_dia_mem_status P <> 0%Z /\ ndia P = 2%Z /\ children P = [H])
  /\ generate_m_matrices P 2 = generate_m_matrices H 2.
Proof.
  intros H P.
  assert (Ha : ham_dia_mem_status H <> 0%Z) by discriminate.
  assert (Pa : ham_dia_mem_status P <> 0%Z) by discriminate.
  split; [repeat split; trivial |].
  exact (generate_m_matrices_childless_as_single_bead P H 2
           Ha eq_refl eq_refl Pa eq_refl eq_refl).
Defined.

Lemma bead_factors_product (bn : R) (e : nHamiltonian -> R) (l : list nHamiltonian) :
  Rprod (map (fun ch => exp (- bn * e ch)) l) = exp (- bn * Rsum (map e l)).
Proof.
  induction l as [| ch l IH]; cbn [map Rprod Rsum fold_right].
  - rewrite Rmult_0_r. now rewrite exp_0.
  - fold (Rprod (map (fun ch => exp (- bn * e ch)) l)) (Rsum (map e l)).
    rewrite IH, <- exp_plus. f_equal. ring.
Qed.

(** X18: with at least one child, the product over the beads of the (0,0)
    entries returned by [generate_m_matrices] is [e^(-beta m0)], where [m0]
    is the mean of the beads' [V0]; likewise for the (1,1) entries and
    [V1]. *)
Theorem generate_m_matrices_product (H : nHamiltonian) (beta : R) :
  ham_dia_mem_status H <> 0%Z -> ndia H = 2%Z -> children H <> [] ->
  exists Ms : list MATRIX,
    generate_m_matrices H beta = Ret Ms
    /\ Rprod (map (fun M => mget M 0 0) Ms)
       = exp (- beta * (Rsum (map (fun ch => real (get (ham_dia ch) 0 0)) (children H))
                        / INR (List.length (children H))))
    /\ Rprod (map (fun M => mget M 1 1) Ms)
       = exp (- beta * (Rsum (map (fun ch => real (get (ham_dia ch) 1 1)) (children H))
                        / INR (List.length (children H)))).
Proof.
  intros Ha Hn Hne. unfold generate_m_matrices.
  destruct (preconditions_pass H Ha Hn) as [-> ->].
  destruct (Nat.eqb_spec (List.length (children H)) 0) as [E0 | _].
  { destruct (children H); [tauto | discriminate E0]. }
  eexists. split; [reflexivity |]. cbv zeta.
  set (n := INR (List.length (children H))).
  rewrite !map_map.
  split.
  - rewrite (map_ext _ (fun ch => exp (- (beta / n) * real (get (ham_dia ch) 0 0)))).
    + rewrite bead_factors_product. f_equal. unfold Rdiv. ring.
    + intros ch.
      match goal with
      | |- mget (mset (mset (mset (mset _ 0 0 ?a) 0 1 ?b) 1 0 ?c) 1 1 ?d) 0 0 = _ =>
          rewrite (proj1 (proj2 (proj2 (m_matrix_entries a b c d))))
      end.
      f_equal. unfold Rdiv. ring.
  - rewrite (map_ext _ (fun ch => exp (- (beta / n) * real (get (ham_dia ch) 1 1)))).
    + rewrite bead_factors_product. f_equal. unfold Rdiv. ring.
    + intros ch.
      match goal with
      | |- mget (mset (mset (mset (mset _ 0 0 ?a) 0 1 ?b) 1 0 ?c) 1 1 ?d) 1 1 = _ =>
          rewrite (proj2 (proj2 (proj2 (proj2 (proj2 (m_matrix_entries a b c d))))))
      end.
      f_equal. unfold Rdiv. ring.
Qed.

Lemma generate_m_matrices_product_witness :
  let H := ring_polymer 1 [bead 1 2 (mkComplex 0.5 0) []; bead 3 4 (mkComplex 0.5 0) []] in
  (ham_dia_mem_status H <> 0%Z /\ ndia H = 2%Z /\ children H <> [])
  /\ exists Ms : list MATRIX,
      generate_m_matrices H 2 = Ret Ms
      /\ Rprod (map (fun M => mget M 0 0) Ms)
         = exp (- 2 * (Rsum (map (fun ch => real (get (ham_dia ch) 0 0)) (children H))
                       / INR (List.length (children H)))).
Proof.
  intros H.
  assert (Ha : ham_dia_mem_status H <> 0%Z) by discriminate.
  assert (Hne : children H <> []) by discriminate.
  split; [repeat split; trivial |].
  destruct (generate_m_matrices_product H 2 Ha eq_refl Hne) as (Ms & E & P & _).
  exists Ms. split; [exact E | exact P].
Defined.

(** ** The force matrices of [kcrpmd_effective_force] (lines 194-229) *)

Lemma set_nth_length (n : nat) (v : R) (l : list R) :
  List.length (set_nth n v l) = List.length l.
Proof.
  revert n. induction l as [| h t IH]; intros [| k]; cbn; trivial.
  now rewrite IH.
Qed.

Lemma set_nth_same (n : nat) (v d : R) (l : list R) :
  (n < List.length l)%nat -> nth n (set_nth n v l) d = v.
Proof.
  revert n. induction l as [| h t IH]; intros [| k] Hn; cbn in *; try lia; trivial.
  apply IH. lia.
Qed.

Lemma set_nth_other (n m : nat) (v d : R) (l : list R) :
  n <> m -> nth m (set_nth n v l) d = nth m l d.
Proof.
  revert n m. induction l as [| h t IH]; intros [| k] [| j] Hnm; cbn; trivial;
    try congruence.
  apply IH. congruence.
Qed.

Lemma row_major_column_0 (cols i j k : nat) :
  (j < cols)%nat -> (k * cols + 0 = i * cols + j)%nat -> i = k /\ j = 0%nat.
Proof.
  intros Hj E.
  destruct (Nat.lt_trichotomy i k) as [Hlt | [-> | Hgt]].
  - assert (S i * cols <= k * cols)%nat by (apply Nat.mul_le_mono_r; lia).
    cbn [Nat.mul] in *. lia.
  - split; lia.
  - assert (S k * cols <= i * cols)%nat by (apply Nat.mul_le_mono_r; lia).
    cbn [Nat.mul] in *. lia.
Qed.

Lemma fill_column_step (f : nat -> R) (k : nat) (M : MATRIX) :
  fill_column f (S k) M = mset (fill_column f k M) k 0 (f k).
Proof.
  unfold fill_column. rewrite seq_S, fold_left_app. reflexivity.
Qed.

Lemma fill_column_shape (f : nat -> R) (k : nat) (M : MATRIX) :
  n_rows (fill_column f k M) = n_rows M
  /\ n_cols (fill_column f k M) = n_cols M
  /\ List.length (elts (fill_column f k M)) = List.length (elts M).
Proof.
  induction k as [| k (IHr & IHc & IHl)].
  - repeat split.
  - rewrite fill_column_step. unfold mset. cbn [n_rows n_cols elts].
    rewrite set_nth_length. repeat split; assumption.
Qed.

Lemma fill_column_entries (f : nat -> R) (k : nat) (M : MATRIX) (i j : nat) :
  (k * n_cols M <= List.length (elts M))%nat -> (j < n_cols M)%nat ->
  mget (fill_column f k M) i j
  = if ((i <? k) && (j =? 0))%nat then f i else mget M i j.
Proof.
  intros Hlen Hj. induction k as [| k IH].
  - reflexivity.
  - rewrite fill_column_step.
    destruct (fill_column_shape f k M) as (_ & Ec & El).
    unfold mget, mset. cbn [n_rows n_cols elts]. rewrite Ec.
    assert (IH' := IH ltac:(lia)). unfold mget in IH'. rewrite Ec in IH'.
    destruct (Nat.eq_dec (k * n_cols M + 0) (i * n_cols M + j)) as [E | NE].
    + destruct (row_major_column_0 (n_cols M) i j k Hj E) as [-> ->].
      rewrite set_nth_same by (rewrite El; cbn [Nat.mul] in Hlen; lia).
      replace (k <? S k)%nat with true by (symmetry; apply Nat.ltb_lt; lia).
      reflexivity.
    + rewrite set_nth_other by exact NE. rewrite IH'.
      destruct (Nat.eqb_spec j 0) as [-> | Hj0]; rewrite ?andb_false_r; trivial.
      assert (i <> k) by (intros ->; apply NE; lia).
      replace (i <? S k)%nat with (i <? k)%nat; trivial.
      destruct (Nat.ltb_spec i k), (Nat.ltb_spec i (S k)); trivial; lia.
Qed.

(** X19: the loop of lines 221-229 leaves the shape of a force matrix
    unchanged, stores in column 0 of every row [dof < ndof] the value
    computed for that row, and leaves the other columns at the zero they
    were created with. *)
Theorem fill_column_fills_column_0 (f : nat -> R) (ndof ntraj dof j : nat) :
  (dof < ndof)%nat -> (j < ntraj)%nat ->
  let F := fill_column f ndof (MATRIX_new ndof ntraj) in
  n_rows F = ndof /\ n_cols F = ntraj
  /\ List.length (elts F) = (ndof * ntraj)%nat
  /\ mget F dof 0 = f dof
  /\ (j <> 0%nat -> mget F dof j = 0).
Proof.
  intros Hd Hj F.
  destruct (fill_column_shape f ndof (MATRIX_new ndof ntraj)) as (Er & Ec & El).
  cbn [MATRIX_new n_rows n_cols elts] in Er, Ec, El. rewrite repeat_length in El.
  assert (Hlen : (ndof * n_cols (MATRIX_new ndof ntraj)
                  <= List.length (elts (MATRIX_new ndof ntraj)))%nat).
  { cbn [MATRIX_new n_cols elts]. rewrite repeat_length. lia. }
  split; [exact Er | split; [exact Ec | split; [exact El | split]]].
  - unfold F. rewrite fill_column_entries; [| exact Hlen | cbn; lia].
    replace (dof <? ndof)%nat with true by (symmetry; apply Nat.ltb_lt; exact Hd).
    reflexivity.
  - intros Hj0. unfold F. rewrite fill_column_entries; [| exact Hlen | cbn; lia].
    replace (j =? 0)%nat with false by (symmetry; apply Nat.eqb_neq; exact Hj0).
    rewrite andb_false_r. unfold mget, MATRIX_new. cbn [n_cols elts].
    apply nth_repeat.
Qed.

Lemma fill_column_fills_column_0_witness :
  ((1 < 3)%nat /\ (0 < 1)%nat)
  /\ mget (fill_column (fun dof => - INR dof) 3 (MATRIX_new 3 1)) 1 0 = - INR 1.
Proof.
  assert (Hd : (1 < 3)%nat) by lia. assert (Hj : (0 < 1)%nat) by lia.
  split; [split; assumption |].
  exact (proj1 (proj2 (proj2 (proj2
           (fill_column_fills_column_0 (fun dof => - INR dof) 3 1 1 0 Hd Hj))))).
Defined.

(** ** A Hamiltonian that does not depend on the coordinates *)

Lemma map_repeat_0 (g : R -> R) (n : nat) :
  g 0 = 0 -> map g (repeat 0 n) = repeat 0 n.
Proof. intros Hg. induction n as [| n IH]; cbn; [| rewrite Hg, IH]; reflexivity. Qed.

Lemma zip_repeat_0 (g : R -> R -> R) (n : nat) :
  g 0 0 = 0 -> zip_with g (repeat 0 n) (repeat 0 n) = repeat 0 n.
Proof. intros Hg. induction n as [| n IH]; cbn; [| rewrite Hg, IH]; reflexivity. Qed.

Lemma set_nth_repeat_0 (k n : nat) : set_nth k 0 (repeat 0 n) = repeat 0 n.
Proof.
  revert k. induction n as [| n IH]; intros [| k]; cbn; trivial. now rewrite IH.
Qed.

Lemma mscale_zero (s : R) (r c : nat) : mscale s (MATRIX_new r c) = MATRIX_new r c.
Proof.
  unfold mscale, MATRIX_new. cbn [n_rows n_cols elts].
  rewrite map_repeat_0; [reflexivity | ring].
Qed.

Lemma mscale_r_zero (s : R) (r c : nat) : mscale_r (MATRIX_new r c) s = MATRIX_new r c.
Proof.
  unfold mscale_r, MATRIX_new. cbn [n_rows n_cols elts].
  rewrite map_repeat_0; [reflexivity | ring].
Qed.

Lemma mdiv_zero (s : R) (r c : nat) : mdiv (MATRIX_new r c) s = MATRIX_new r c.
Proof.
  unfold mdiv, MATRIX_new. cbn [n_rows n_cols elts].
  rewrite map_repeat_0; [reflexivity | unfold Rdiv; ring].
Qed.

Lemma madd_zero (r c : nat) : madd (MATRIX_new r c) (MATRIX_new r c) = MATRIX_new r c.
Proof.
  unfold madd, MATRIX_new. cbn [n_rows n_cols elts].
  rewrite zip_repeat_0; [reflexivity | ring].
Qed.

Lemma msub_zero (r c : nat) : msub (MATRIX_new r c) (MATRIX_new r c) = MATRIX_new r c.
Proof.
  unfold msub, MATRIX_new. cbn [n_rows n_cols elts].
  rewrite zip_repeat_0; [reflexivity | ring].
Qed.

Lemma fill_column_zero (f : nat -> R) (ndof r c : nat) :
  (forall dof, (dof < ndof)%nat -> f dof = 0) ->
  fill_column f ndof (MATRIX_new r c) = MATRIX_new r c.
Proof.
  induction ndof as [| k IH]; intros Hf.
  - reflexivity.
  - rewrite fill_column_step, IH by (intros; apply Hf; lia).
    rewrite Hf by lia. unfold mset, MATRIX_new. cbn [n_rows n_cols elts].
    now rewrite set_nth_repeat_0.
Qed.

Ltac zero_matrices :=
  repeat (rewrite ?mscale_zero, ?mscale_r_zero, ?mdiv_zero, ?madd_zero, ?msub_zero).

Lemma constrained_FKP_zero (beta eta a c d V0 V1 K : R) (ndof ntraj : nat) :
  let Z := MATRIX_new ndof ntraj in
  constrained_FKP beta eta a c d V0 V1 K ndof ntraj Z Z Z = Z.
Proof.
  intros Z. unfold Z, constrained_FKP, kinked_pair_FKP, constraint_Fw,
    constraint_FA, constraint_FC, constraint_FC_first.
  cbv zeta.
  destruct (FKP_regime beta V0 V1 K);
    destruct (Rlt_dec (c * Rabs (beta * K - 1)) 250);
    destruct (Rlt_dec (d * Rabs (beta * K - 1)) 250);
    zero_matrices; reflexivity.
Qed.



(** ** The constraint as a penalty (lines 126-129) *)

(** X21: for [beta > 0], [beta K >= 1e-100], [beta |V0 - V1| <= 1000],
    [1e-6 <= a <= 3.1415], [1e-6 <= eta <= 1], [c >= 0] and [d >= 0] the
    switch [A] lies in [[0, a]], [|w|] is at most [1e103], [C] lies in
    [[1e-10, 1]], and the term added to [VKP] at line 129 is not negative:
    the constraint never lowers the kinked-pair energy. *)
Theorem kinetic_constraint_is_a_penalty (beta eta a c d V0 V1 K : R) :
  0 < beta -> 1e-100 <= beta * K -> beta * Rabs (V0 - V1) <= 1000 ->
  1e-6 <= a <= 3.1415 -> 1e-6 <= eta <= 1 -> 0 <= c -> 0 <= d ->
  0 <= constraint_A beta a c K <= a
  /\ Rabs (constraint_w V0 V1 K) <= 1e103
  /\ 1e-10 <= constraint_C beta eta a c d K <= 1
  /\ 0 <= kinetic_constraint beta eta a c d V0 V1 K
  /\ kinked_pair_VKP beta V0 V1 K <= constrained_VKP beta eta a c d V0 V1 K.
Proof.
  intros Hb HbK Hg [Ha0 Ha1] [He0 He1] Hc Hd.
  destruct (constraint_w_bound beta V0 V1 K Hb HbK Hg) as [HK Hw].
  assert (Ha0' : 0 <= a) by lra.
  pose proof (constraint_A_range beta a c K Ha0') as HA.
  pose proof (constraint_C_floor beta eta a c d K Ha0 He0 Hc Hd) as HCm.
  assert (HC1 : constraint_C beta eta a c d K <= 1).
  { unfold constraint_C. cbv zeta.
    pose proof (tanh_bounds (- d * (beta * K - 1))) as Ht.
    pose proof (sqrt_pos (constraint_A beta a c K / 3.1415)) as Hs0.
    assert (Hs1 : sqrt (constraint_A beta a c K / 3.1415) <= 1).
    { rewrite <- sqrt_1. apply sqrt_le_1_alt.
      apply Rmult_le_reg_r with 3.1415; [lra |].
      unfold Rdiv. rewrite Rmult_assoc, Rinv_l by lra. lra. }
    set (s := sqrt (constraint_A beta a c K / 3.1415)) in *.
    set (t := tanh (- d * (beta * K - 1))) in *.
    assert (s * eta <= 1) by nra. nra. }
  assert (Hk : 0 <= kinetic_constraint beta eta a c d V0 V1 K).
  { unfold kinetic_constraint. cbv zeta.
    assert (Hln : ln (constraint_C beta eta a c d K) <= 0).
    { destruct HC1 as [Hlt | Heq].
      - left. rewrite <- ln_1. apply ln_increasing; lra.
      - right. rewrite Heq. apply ln_1. }
    pose proof (pow2_ge_0 (constraint_w V0 V1 K)) as Hw2.
    assert (0 <= constraint_A beta a c K * constraint_w V0 V1 K ^ 2)
      by (apply Rmult_le_pos; lra).
    apply Rmult_le_pos; [lra |]. left. apply Rinv_0_lt_compat. exact Hb. }
  repeat split; try lra. unfold constrained_VKP. lra.
Qed.

Lemma kinetic_constraint_is_a_penalty_witness :
  (0 < 1000 /\ 1e-100 <= 1000 * 0.01 /\ 1000 * Rabs (0 - 0.002) <= 1000
   /\ 1e-6 <= 1 <= 3.1415 /\ 1e-6 <= 1 <= 1 /\ 0 <= 1 /\ 0 <= 1)
  /\ 0 <= kinetic_constraint 1000 1 1 1 1 0 0.002 0.01.
Proof.
  assert (Hb : 0 < 1000) by lra. assert (HK : 1e-100 <= 1000 * 0.01) by lra.
  assert (Hg : 1000 * Rabs (0 - 0.002) <= 1000)
    by (rewrite Rabs_minus_sym, Rabs_pos_eq; lra).
  assert (Ha : 1e-6 <= 1 <= 3.1415) by lra. assert (He : 1e-6 <= 1 <= 1) by lra.
  assert (Hc : 0 <= 1) by lra.
  split; [repeat split; lra || assumption |].
  exact (proj1 (proj2 (proj2 (proj2
           (kinetic_constraint_is_a_penalty 1000 1 1 1 1 0 0.002 0.01
              Hb HK Hg Ha He Hc Hc))))).
Defined.

(** ** Direction of the gate force (lines 385-402) *)

(** X22: for [beta > 0] and [b > 0] the force term of a gate never points
    away from its center: it is not positive for [x > 0] and not negative
    for [x < 0], with opposite values at [x] and [-x].  At the center itself
    the test [x > 0.0] fails and the term is the non-negative number
    [b (1 + tanh (-b/2)) / beta]. *)
Theorem gate_force_points_to_center (beta b x : R) :
  0 < beta -> 0 < b ->
  (0 < x -> gate_force beta b x <= 0)
  /\ (x < 0 -> 0 <= gate_force beta b x)
  /\ (x <> 0 -> gate_force beta b (- x) = - gate_force beta b x)
  /\ gate_force beta b 0 = b * (1 + tanh (- b / 2)) / beta
  /\ 0 <= gate_force beta b 0.
Proof.
  intros Hb Hbb.
  assert (Hi : 0 < / beta) by (apply Rinv_0_lt_compat; exact Hb).
  assert (Hpos : forall u, 0 < b * (1 + tanh u) * / beta).
  { intros u. pose proof (tanh_bounds u).
    apply Rmult_lt_0_compat; [apply Rmult_lt_0_compat |]; lra. }
  assert (E0 : gate_force beta b 0 = b * (1 + tanh (- b / 2)) / beta).
  { unfold gate_force. destruct (Rgt_dec 0 0.0); [lra |].
    rewrite Rabs_R0. f_equal. f_equal. f_equal. f_equal. lra. }
  split; [| split; [| split; [| split]]].
  - intros Hx. unfold gate_force. destruct (Rgt_dec x 0.0); [| lra].
    specialize (Hpos (b * (Rabs x - 0.5))). unfold Rdiv. lra.
  - intros Hx. unfold gate_force. destruct (Rgt_dec x 0.0); [lra |].
    specialize (Hpos (b * (Rabs x - 0.5))). unfold Rdiv. lra.
  - intros Hx. unfold gate_force. rewrite Rabs_Ropp.
    destruct (Rgt_dec x 0.0); destruct (Rgt_dec (- x) 0.0); try lra;
      unfold Rdiv; ring.
  - exact E0.
  - rewrite E0. left. apply Hpos.
Qed.

Lemma gate_force_points_to_center_witness :
  (0 < 1000 /\ 0 < 50) /\ 0 <= gate_force 1000 50 0.
Proof.
  assert (Hb : 0 < 1000) by lra. assert (Hbb : 0 < 50) by lra.
  split; [split; assumption |].
  exact (proj2 (proj2 (proj2 (proj2 (gate_force_points_to_center 1000 50 0 Hb Hbb))))).
Defined.

(** ** Determinant of a bead matrix (lines 57-60, 68-71) *)

(** X23: with at least one child and [bn = beta / children.size()], when
    [|bn V0|] and [|bn V1|] are at most 300 for bead [traj], the matrix
    returned for that bead has determinant
    [e^(-bn (V0 + V1)) (1 - (bn K)^2)] and diagonal entries between
    [e^(-300)] and [e^300]; it is singular exactly when [bn K] is [1] or
    [-1]. *)
Theorem generate_m_matrices_determinant (H : nHamiltonian) (beta : R) (traj : nat) :
  let ch := child H traj in
  let bn := beta / INR (List.length (children H)) in
  let V0 := real (get (ham_dia ch) 0 0) in
  let V1 := real (get (ham_dia ch) 1 1) in
  let K := Cabs (get (ham_dia ch) 0 1) in
  ham_dia_mem_status H <> 0%Z -> ndia H = 2%Z ->
  (traj < List.length (children H))%nat ->
  Rabs (bn * V0) <= 300 -> Rabs (bn * V1) <= 300 ->
  exists Ms : list MATRIX,
    generate_m_matrices H beta = Ret Ms
    /\ let M := nth traj Ms (MATRIX_new 0 0) in
       let det := mget M 0 0 * mget M 1 1 - mget M 0 1 * mget M 1 0 in
       det = exp (- (bn * (V0 + V1))) * (1 - (bn * K) ^ 2)
       /\ exp (- 300) <= mget M 0 0 <= exp 300
       /\ exp (- 300) <= mget M 1 1 <= exp 300
       /\ (det = 0 <-> bn * K = 1 \/ bn * K = -1).
Proof.
  intros ch bn V0 V1 K Ha Hn Hlt HV0 HV1. unfold generate_m_matrices.
  destruct (preconditions_pass H Ha Hn) as [-> ->].
  destruct (Nat.eqb_spec (List.length (children H)) 0) as [E0 | _]; [lia |].
  eexists. split; [reflexivity |]. cbv zeta.
  set (f := fun ch : nHamiltonian => _).
  rewrite (nth_indep (map f (children H)) (MATRIX_new 0 0) (f H))
    by (rewrite length_map; exact Hlt).
  rewrite map_nth. fold (child H traj). fold ch. unfold f.
  fold V0 V1 K.
  set (n := INR (List.length (children H))) in *.
  destruct (m_matrix_entries (exp (- beta / n * V0))
              (- beta / n * K * exp (- beta / n * V0))
              (- beta / n * K * exp (- beta / n * V1))
              (exp (- beta / n * V1))) as (_ & _ & E00 & E01 & E10 & E11).
  cbv zeta in E00, E01, E10, E11. rewrite E00, E01, E10, E11.
  assert (Ed : exp (- beta / n * V0) * exp (- beta / n * V1)
               - - beta / n * K * exp (- beta / n * V0)
                 * (- beta / n * K * exp (- beta / n * V1))
               = exp (- (bn * (V0 + V1))) * (1 - (bn * K) ^ 2)).
  { unfold bn.
    replace (- (beta / n * (V0 + V1))) with (- beta / n * V0 + - beta / n * V1)
      by (unfold Rdiv; ring).
    rewrite exp_plus. unfold Rdiv. ring. }
  split; [exact Ed |]. rewrite Ed.
  pose proof (exp_pos (- (bn * (V0 + V1)))) as Hp.
  destruct (Rabs_bounds _ _ HV0) as [L0 U0].
  destruct (Rabs_bounds _ _ HV1) as [L1 U1].
  assert (B0 : - beta / n * V0 = - (bn * V0)) by (unfold bn, Rdiv; ring).
  assert (B1 : - beta / n * V1 = - (bn * V1)) by (unfold bn, Rdiv; ring).
  split; [| split].
  - rewrite B0. split; apply exp_le; lra.
  - rewrite B1. split; apply exp_le; lra.
  - split.
    + intros E. apply Rmult_integral in E. destruct E as [E | E]; [lra |].
      assert (Ef : (bn * K - 1) * (bn * K + 1) = 0).
      { transitivity (- (1 - (bn * K) ^ 2)); [ring | rewrite E; ring]. }
      destruct (Rmult_integral _ _ Ef); [left | right]; lra.
    + intros [E | E]; rewrite E; ring.
Qed.

Lemma generate_m_matrices_determinant_witness :
  let H := ring_polymer 1 [bead 1 2 (mkComplex 0.5 0) []; bead 3 4 (mkComplex 0.5 0) []] in
  (ham_dia_mem_status H <> 0%Z /\ ndia H = 2%Z /\ (1 < List.length (children H))%nat
   /\ Rabs (2 / INR (List.length (children H)) * real (get (ham_dia (child H 1)) 0 0))
      <= 300
   /\ Rabs (2 / INR (List.length (children H)) * real (get (ham_dia (child H 1)) 1 1))
      <= 300)
  /\ exists Ms : list MATRIX, generate_m_matrices H 2 = Ret Ms.
Proof.
  intros H.
  assert (Ha : ham_dia_mem_status H <> 0%Z) by discriminate.
  assert (Hl : (1 < List.length (children H))%nat) by (cbn; lia).
  assert (H0 : Rabs (2 / INR (List.length (children H))
                     * real (get (ham_dia (child H 1)) 0 0)) <= 300).
  { cbn. rewrite Rabs_pos_eq; lra. }
  assert (H1 : Rabs (2 / INR (List.length (children H))
                     * real (get (ham_dia (child H 1)) 1 1)) <= 300).
  { cbn. rewrite Rabs_pos_eq; lra. }
  split; [repeat split; trivial |].
  destruct (generate_m_matrices_determinant H 2 1 Ha eq_refl Hl H0 H1) as (Ms & E & _).
  exists Ms. exact E.
Defined.
